(** * Web Stories dashboard: the media3p resource adapter, the "My Stories"
    list controller and the media3p category picker.

    A shallow embedding of
    - [getUrls], [getFullAsset], [getResourceFromMedia3p]
      (edit-story, media utilities),
    - the state, effects and event handlers of the [MyStories] component
      (dashboard/app/views/myStories/index.js),
    - [renderCategories] of the [Media3pCategories] component,
    together with the properties the specification states about them.

    JavaScript numbers that hold pixel sizes, page numbers and counts are
    modelled as integers ([Z]); strings as [string]. *)

From stdpp Require Import base decidable option list sorting gmap strings fin_maps.
From Stdlib Require Import ZArith Lia.

Set Default Proof Using "Type".

(** ** JavaScript values shared by the three components *)

Module Js.

(** A value that may be [undefined] or [null] instead of an [A]. *)
Inductive Nullable (A : Type) : Type :=
| JsUndefined
| JsNull
| JsVal (a : A).
Global Arguments JsUndefined {A}.
Global Arguments JsNull {A}.
Global Arguments JsVal {A} a.

Global Instance Nullable_eq_dec `{EqDecision A} : EqDecision (Nullable A).
Proof. solve_decision. Defined.

(** [x && e] where [x] is an object, [undefined] or [null]: the falsy
    left operand itself, or else the right operand (which may read [x]). *)
Definition and_then {A B} (x : Nullable A) (e : A → B) : Nullable B :=
  match x with
  | JsUndefined => JsUndefined
  | JsNull => JsNull
  | JsVal a => JsVal (e a)
  end.

(** [b && e] where [b] is a boolean: [false] itself, or else [e]. *)
Inductive FalseOr (A : Type) : Type :=
| JsFalse
| Rhs (a : A).
Global Arguments JsFalse {A}.
Global Arguments Rhs {A} a.

Global Instance FalseOr_eq_dec `{EqDecision A} : EqDecision (FalseOr A).
Proof. solve_decision. Defined.

Definition and_bool {A} (b : bool) (e : A) : FalseOr A :=
  if b then Rhs e else JsFalse.

(** [String(k)] for a property key that may be [undefined] or [null]. *)
Definition ToString (k : Nullable string) : string :=
  match k with
  | JsUndefined => "undefined"
  | JsNull => "null"
  | JsVal s => s
  end.

(** Truthiness of an optional string: [undefined], [null] and the empty
    string are falsy. *)
Definition ToBoolean (k : Nullable string) : bool :=
  match k with
  | JsVal s => negb (String.eqb s "")
  | _ => false
  end.

(** [String.prototype.toLowerCase], on the ASCII letters. The only use is
    a comparison with the ASCII word [image]; no character outside ASCII
    lower-cases to one of its letters, so the comparison is exact. *)
Definition lower_ascii (c : Ascii.ascii) : Ascii.ascii :=
  let n := Ascii.nat_of_ascii c in
  if ((65 <=? n)%nat && (n <=? 90)%nat)%bool
  then Ascii.ascii_of_nat (n + 32) else c.

Fixpoint toLowerCase (s : string) : string :=
  match s with
  | EmptyString => EmptyString
  | String c s' => String (lower_ascii c) (toLowerCase s')
  end.

(** What a [throw] carries. *)
Inductive JsError : Type :=
| TypeError
| Error (message : string).

Global Instance JsError_eq_dec : EqDecision JsError.
Proof. solve_decision. Defined.

(** How a call completes. *)
Inductive Completion (A : Type) : Type :=
| Return (a : A)
| Throw (e : JsError).
Global Arguments Return {A} a.
Global Arguments Throw {A} e.

Definition throws {A} (c : Completion A) : Prop :=
  match c with Throw _ => True | Return _ => False end.

Definition returns {A} (c : Completion A) : Prop :=
  match c with Return _ => True | Throw _ => False end.

(** [Array.prototype.sort(comparefn)]: a stable sort (ECMAScript 2019);
    [comparefn a b > 0] moves [b] in front of [a], equal elements keep
    their order. Insertion of each element in front of the sorted rest. *)
Section sort.
Context {A : Type} (comparefn : A → A → Z).

Fixpoint sort_insert (x : A) (l : list A) : list A :=
  match l with
  | [] => [x]
  | y :: l' =>
      if (comparefn x y <=? 0)%Z then x :: l else y :: sort_insert x l'
  end.

Definition sort (l : list A) : list A := foldr sort_insert [] l.
End sort.

(** Comparators of the form [(el1, el2) => key(el2) - key(el1)], and what
    the head of the sorted array is for them. *)
Section by_key.
Context {A : Type} (key : A → Z).

Definition descending (el1 el2 : A) : Z := (key el2 - key el1)%Z.

(** The first of the elements with the largest key. *)
Definition first_max (l : list A) : option A :=
  foldr (λ x best,
           match best with
           | None => Some x
           | Some y => if (key y <=? key x)%Z then Some x else Some y
           end) None l.
End by_key.

(** [Array.prototype.find]. *)
Fixpoint find {A} (p : A → bool) (l : list A) : option A :=
  match l with
  | [] => None
  | x :: l' => if p x then Some x else find p l'
  end.

(** [new Map(entries)]: entries in insertion order; setting a key that is
    already there replaces its value in place. Keys are compared as
    values, so [null] and the string [null] are two keys. *)
Section map.
Context {V : Type}.

Fixpoint Map_set (k : Nullable string) (v : V)
    (mp : list (Nullable string * V)) : list (Nullable string * V) :=
  match mp with
  | [] => [(k, v)]
  | (k', v') :: mp' =>
      if decide (k' = k) then (k, v) :: mp' else (k', v') :: Map_set k v mp'
  end.

Definition new_Map (entries : list (Nullable string * V))
    : list (Nullable string * V) :=
  foldl (λ mp kv, Map_set kv.1 kv.2 mp) [] entries.

(** [Object.fromEntries]: each key converted to a property name, a later
    entry overwriting an earlier one of the same name. *)
Definition fromEntries (entries : list (Nullable string * V))
    : gmap string V :=
  foldl (λ o kv, <[ToString kv.1 := kv.2]> o) ∅ entries.
End map.

End Js.

(** ** The media3p resource adapter (getResourceFromMedia3p.js) *)

Module Media3p.
Import Js.

(** The typedefs of the module. (The source file swaps the property lists
    of [Author] and [ImageUrl]; the fields are those the code reads.) *)
Module Author.
Record t : Type := mk { displayName : string; url : Nullable string }.
End Author.

Module ImageUrl.
Record t : Type := mk {
  imageName : Nullable string;
  url : string;
  mimeType : string;
  width : Z;
  height : Z }.
End ImageUrl.

Module Media3pMedia.
Record t : Type := mk {
  name : string;
  provider : string;
  type : string;
  author : Nullable Author.t;
  title : Nullable string;
  description : Nullable string;
  createTime : string;
  updateTime : string;
  registerUsageUrl : string;
  imageUrls : Nullable (list ImageUrl.t) }.

(** Assignment to the elements of the array [m.imageUrls]. *)
Definition set_imageUrls (m : t) (urls : list ImageUrl.t) : t :=
  mk (name m) (provider m) (type m) (author m) (title m) (description m)
     (createTime m) (updateTime m) (registerUsageUrl m) (JsVal urls).
End Media3pMedia.

(** An entry of the [sizes] object of a resource. *)
Module Size.
Record t : Type := mk {
  file : string;
  source_url : string;
  mime_type : string;
  width : Z;
  height : Z }.
End Size.

Module Attribution.
Record t : Type := mk { author : Author.t }.
End Attribution.

(** The resource object: the properties [getResourceFromMedia3p] passes to
    [createResource]. *)
Module Resource.
Record t : Type := mk {
  type : string;
  mimeType : string;
  creationDate : string;
  src : string;
  width : Z;
  height : Z;
  poster : Nullable string;
  posterId : Nullable Z;
  id : string;
  length : Nullable Z;
  lengthFormatted : Nullable string;
  title : Nullable string;
  alt : Nullable string;
  local : bool;
  sizes : gmap string Size.t;
  attribution : Nullable Attribution.t }.
End Resource.

(** Modelled from the spec: createResource.js is imported by the adapter
    and is not among the sources. The spec's Media Resource is the record of
    the properties it is given (type, mime type, dimensions, source URL,
    creation date, title, alt, attribution, sizes), so [createResource]
    returns the properties it receives. *)
Definition createResource (attrs : Resource.t) : Resource.t := attrs.

(** Calls read and update the media object they are given by reference and
    may throw: a state and error monad over that object. *)
Definition M (A : Type) : Type :=
  Media3pMedia.t → Media3pMedia.t * Completion A.

Global Instance M_ret : MRet M := λ A a m, (m, Return a).
Global Instance M_bind : MBind M := λ A B k c m,
  match c m with
  | (m', Return a) => k a m'
  | (m', Throw e) => (m', Throw e)
  end.

Definition throw {A} (e : JsError) : M A := λ m, (m, Throw e).
Definition read {A} (f : Media3pMedia.t → A) : M A := λ m, (m, Return (f m)).
Definition write (f : Media3pMedia.t → Media3pMedia.t) : M () :=
  λ m, (f m, Return ()).

(** Reading a property or calling a method of an array that may be
    [undefined] or [null] throws a [TypeError]. *)
Definition the_array {A} (a : Nullable (list A)) : M (list A) :=
  match a with
  | JsVal l => mret l
  | _ => throw TypeError
  end.

(** Reading a property of [a[0]], which is [undefined] on an empty array. *)
Definition the_object {A} (o : option A) : M A :=
  match o with
  | Some a => mret a
  | None => throw TypeError
  end.

Definition is_image (m : Media3pMedia.t) : bool :=
  String.eqb (toLowerCase (Media3pMedia.type m)) "image".

Definition getUrls : M (gmap string Size.t) :=
  m ← read id;
  if is_image m then
    imageUrls ← the_array (Media3pMedia.imageUrls m);
    mret (fromEntries (new_Map
      ((λ u, (ImageUrl.imageName u,
              Size.mk (Media3pMedia.name m) (ImageUrl.url u)
                      (ImageUrl.mimeType u) (ImageUrl.width u)
                      (ImageUrl.height u))) <$> imageUrls)))
  else throw (Error "Invalid media type.").

(** The message of the first error ends in the string conversion of the
    media object. The sort is in place: it reorders [m.imageUrls]. *)
Definition getFullAsset : M (option ImageUrl.t) :=
  m ← read id;
  if is_image m then
    imageUrls ← the_array (Media3pMedia.imageUrls m);
    if (Z.of_nat (List.length imageUrls) =? 0)%Z then
      throw (Error "No imageUrls for media resource: [object Object]")
    else
      let sorted :=
        sort (λ el1 el2, (ImageUrl.width el2 - ImageUrl.width el1)%Z)
             imageUrls in
      write (λ m, Media3pMedia.set_imageUrls m sorted);;
      mret (sorted !! 0%nat)
  else throw (Error "Invalid media type for media resource: [object Object]").

Definition getResourceFromMedia3p : M Resource.t :=
  urls ← getUrls;
  fullAsset ← getFullAsset;
  fullAsset ← the_object fullAsset;
  m ← read id;
  mret (createResource {|
    Resource.type := toLowerCase (Media3pMedia.type m);
    Resource.mimeType := ImageUrl.mimeType fullAsset;
    Resource.creationDate := Media3pMedia.createTime m;
    Resource.src := ImageUrl.url fullAsset;
    Resource.width := ImageUrl.width fullAsset;
    Resource.height := ImageUrl.height fullAsset;
    Resource.poster := JsNull;
    Resource.posterId := JsNull;
    Resource.id := Media3pMedia.name m;
    Resource.length := JsNull;
    Resource.lengthFormatted := JsNull;
    Resource.title := Media3pMedia.description m;
    Resource.alt := JsNull;
    Resource.local := false;
    Resource.sizes := urls;
    Resource.attribution :=
      and_then (Media3pMedia.author m) (λ author,
        Attribution.mk
          (Author.mk (Author.displayName author) (Author.url author)))
  |}).

(** The size variants of a media object: none when the array is missing. *)
Definition variants (m : Media3pMedia.t) : list ImageUrl.t :=
  match Media3pMedia.imageUrls m with
  | JsVal l => l
  | _ => []
  end.

End Media3p.

(** ** The "My Stories" view (dashboard/app/views/myStories/index.js) *)

Module MyStories.
Import Js.

(** [VIEW_STYLE.GRID] and [VIEW_STYLE.LIST]. *)
Inductive ViewStyle : Type := GRID | LIST.

Global Instance ViewStyle_eq_dec : EqDecision ViewStyle.
Proof. solve_decision. Defined.

(** The module ../../../constants is imported and is not among the sources:
    the values of the story statuses, sort options and sort directions, and
    the three constants the component starts from, are parameters. *)
Class Constants : Type := {
  Status : Type;
  SortOption : Type;
  SortDirection : Type;
  Status_eq_dec :: EqDecision Status;
  SortOption_eq_dec :: EqDecision SortOption;
  SortDirection_eq_dec :: EqDecision SortDirection;
  STORY_STATUSES_0_value : Status;
  STORY_SORT_OPTIONS_LAST_MODIFIED : SortOption;
  SORT_DIRECTION_ASC : SortDirection }.

(** The argument of [fetchStories]. *)
Module Params.
Record t `{Constants} : Type := mk {
  sortOption : SortOption;
  searchTerm : string;
  sortDirection : FalseOr SortDirection;
  status : Status;
  page : Z }.
End Params.

(** The state published by the [ApiContext]. *)
Module Api.
Record t : Type := mk {
  isLoading : bool;
  storiesOrderById : list Z;
  totalStories : Nullable Z;
  totalPages : Nullable Z }.

Global Instance eq_dec : EqDecision t.
Proof. solve_decision. Defined.
End Api.

(** The [useState] cells of the component. *)
Module State.
Record t `{Constants} : Type := mk {
  status : Status;
  typeaheadValue : string;
  viewStyle : ViewStyle;
  currentPageToFetch : Z;
  allPagesLoaded : bool;
  currentStorySort : SortOption;
  currentListSortDirection : SortDirection }.

Global Instance eq_dec `{Constants} : EqDecision t.
Proof. solve_decision. Defined.
End State.

(** The component with its surroundings: its state, the context's state,
    the argument the debounce timer holds for its callback, and the calls of
    [fetchStories] made so far (oldest first). *)
Record World `{Constants} : Type := mkWorld {
  state : State.t;
  api : Api.t;
  pending : option string;
  fetched : list Params.t }.

Section component.
Context `{Constants}.

Definition with_state (f : State.t → State.t) (w : World) : World :=
  mkWorld _ (f (state w)) (api w) (pending w) (fetched w).

Definition setStatus (v : Status) : World → World :=
  with_state (λ s, State.mk _ v (State.typeaheadValue s) (State.viewStyle s)
    (State.currentPageToFetch s) (State.allPagesLoaded s)
    (State.currentStorySort s) (State.currentListSortDirection s)).

Definition setTypeaheadValue (v : string) : World → World :=
  with_state (λ s, State.mk _ (State.status s) v (State.viewStyle s)
    (State.currentPageToFetch s) (State.allPagesLoaded s)
    (State.currentStorySort s) (State.currentListSortDirection s)).

Definition setViewStyle (v : ViewStyle) : World → World :=
  with_state (λ s, State.mk _ (State.status s) (State.typeaheadValue s) v
    (State.currentPageToFetch s) (State.allPagesLoaded s)
    (State.currentStorySort s) (State.currentListSortDirection s)).

Definition setCurrentPageToFetch (v : Z) : World → World :=
  with_state (λ s, State.mk _ (State.status s) (State.typeaheadValue s)
    (State.viewStyle s) v (State.allPagesLoaded s)
    (State.currentStorySort s) (State.currentListSortDirection s)).

Definition setAllPagesLoaded (v : bool) : World → World :=
  with_state (λ s, State.mk _ (State.status s) (State.typeaheadValue s)
    (State.viewStyle s) (State.currentPageToFetch s) v
    (State.currentStorySort s) (State.currentListSortDirection s)).

Definition setCurrentStorySort (v : SortOption) : World → World :=
  with_state (λ s, State.mk _ (State.status s) (State.typeaheadValue s)
    (State.viewStyle s) (State.currentPageToFetch s) (State.allPagesLoaded s)
    v (State.currentListSortDirection s)).

Definition setListSortDirection (v : SortDirection) : World → World :=
  with_state (λ s, State.mk _ (State.status s) (State.typeaheadValue s)
    (State.viewStyle s) (State.currentPageToFetch s) (State.allPagesLoaded s)
    (State.currentStorySort s) v).

(** Modelled from the spec: the fetch collaborator of the api provider is
    not among the sources. [fetchStories(params)] is a request whose answer
    arrives later, as a change of the context's state; the call itself is
    recorded with its parameters. *)
Definition fetchStories (params : Params.t) (w : World) : World :=
  mkWorld _ (state w) (api w) (pending w) (fetched w ++ [params]).

(** Modelled from the spec: the clear-order collaborator of the api provider
    is not among the sources. [clearExistingStoriesOrder()] resets
    [storiesOrderById]. *)
Definition clearExistingStoriesOrder (w : World) : World :=
  mkWorld _ (state w)
    (Api.mk (Api.isLoading (api w)) [] (Api.totalStories (api w))
            (Api.totalPages (api w)))
    (pending w) (fetched w).

(** [a >= b] for a number [a] and a [b] that is a number, [null] (which
    converts to 0) or [undefined] (which converts to NaN: false). *)
Definition ge (a : Z) (b : Nullable Z) : bool :=
  match b with
  | JsVal n => (n <=? a)%Z
  | JsNull => (0 <=? a)%Z
  | JsUndefined => false
  end.

(** *** Effects

    An effect runs after the first render, and after a later render when
    one of its dependencies differs from the previous render. It reads the
    values of the render [r] it belongs to; its updates accumulate in [w]
    and show at the next render. The functions among the dependencies
    ([fetchStories], [clearExistingStoriesOrder], [debounceTypeaheadValue])
    keep their identity from one render to the next. *)
Definition changed {D} `{EqDecision D} (deps : World → D)
    (prev : option World) (r : World) : bool :=
  match prev with
  | None => true
  | Some p => bool_decide (deps p ≠ deps r)
  end.

Definition params_of (r : World) : Params.t :=
  Params.mk _
    (State.currentStorySort (state r))
    (State.typeaheadValue (state r))
    (and_bool (bool_decide (State.viewStyle (state r) = LIST))
              (State.currentListSortDirection (state r)))
    (State.status (state r))
    (State.currentPageToFetch (state r)).

Definition fetch_deps (r : World) :=
  (State.viewStyle (state r), State.currentListSortDirection (state r),
   State.currentPageToFetch (state r), State.currentStorySort (state r),
   State.status (state r), State.typeaheadValue (state r)).

Definition fetch_effect (r w : World) : World := fetchStories (params_of r) w.

Definition loaded_deps (r : World) :=
  (State.currentPageToFetch (state r), Api.totalPages (api r)).

Definition loaded_effect (r w : World) : World :=
  setAllPagesLoaded
    (ge (State.currentPageToFetch (state r)) (Api.totalPages (api r))) w.

Definition search_deps (r : World) := State.typeaheadValue (state r).

Definition search_effect (r w : World) : World :=
  if (0 <? Z.of_nat (String.length (State.typeaheadValue (state r))))%Z
  then setCurrentPageToFetch 1 (clearExistingStoriesOrder w)
  else w.

(** What no effect touches. *)
Definition static (r : World) :=
  (State.status (state r), State.typeaheadValue (state r),
   State.viewStyle (state r), State.currentStorySort (state r),
   State.currentListSortDirection (state r), pending r,
   Api.isLoading (api r), Api.totalStories (api r), Api.totalPages (api r)).

Definition run_if (b : bool) (effect : World → World) (w : World) : World :=
  if b then effect w else w.

(** The effects of one render, in the order of their declaration. *)
Definition commit (prev : option World) (r : World) : World :=
  run_if (changed search_deps prev r) (search_effect r)
    (run_if (changed loaded_deps prev r) (loaded_effect r)
      (run_if (changed fetch_deps prev r) (fetch_effect r) r)).

(** Render, run the effects, and render again as long as they changed the
    component's or the context's state; [fuel] bounds the renders after the
    first. *)
Fixpoint settle (fuel : nat) (prev : option World) (r : World) : World :=
  let w := commit prev r in
  match fuel with
  | O => w
  | S n =>
      if decide (state w = state r ∧ api w = api r) then w
      else settle n (Some r) w
  end.

(** Two more renders always suffice ([settle_fuel] below). *)
Definition render : option World → World → World := settle 2.

(** *** Events *)
Inductive Event : Type :=
| TypeaheadChange (newValue : string)
| DebounceElapsed
| FilterClick (value : Status)
| ViewStyleBarButtonSelected
| GetData
| SortChange (sort : SortOption)
| ListSortChange (sort : SortOption)
| ListSortDirectionChange (direction : SortDirection)
| ApiStateChange (a : Api.t).

(** [debounceTypeaheadValue(newValue)]: (re)starts the 800ms timer with
    [newValue] as the argument of the callback. *)
Definition debounceTypeaheadValue (newValue : string) (w : World) : World :=
  mkWorld _ (state w) (api w) (Some newValue) (fetched w).

(** The timer elapses: the callback [setTypeaheadValue(newTypeaheadValue)]
    runs with the last argument. *)
Definition debounce_elapsed (w : World) : World :=
  match pending w with
  | Some newTypeaheadValue =>
      setTypeaheadValue newTypeaheadValue
        (mkWorld _ (state w) (api w) None (fetched w))
  | None => w
  end.

Definition handleViewStyleBarButtonSelected (w : World) : World :=
  if decide (State.viewStyle (state w) = LIST) then setViewStyle GRID w
  else setViewStyle LIST w.

(** The [handleGetData] given to the [InfiniteScroller]. *)
Definition handleGetData (w : World) : World :=
  if negb (Api.isLoading (api w)) then
    setCurrentPageToFetch (State.currentPageToFetch (state w) + 1) w
  else w.

(** The [handleSortChange] given to [BodyViewOptions]. *)
Definition handleSortChange (sort : SortOption) (w : World) : World :=
  setCurrentStorySort sort
    (setCurrentPageToFetch 1 (clearExistingStoriesOrder w)).

Definition handle (e : Event) (w : World) : World :=
  match e with
  | TypeaheadChange newValue => debounceTypeaheadValue newValue w
  | DebounceElapsed => debounce_elapsed w
  | FilterClick value => setStatus value w
  | ViewStyleBarButtonSelected => handleViewStyleBarButtonSelected w
  | GetData => handleGetData w
  | SortChange sort => handleSortChange sort w
  | ListSortChange sort => setCurrentStorySort sort w
  | ListSortDirectionChange direction => setListSortDirection direction w
  | ApiStateChange a => mkWorld _ (state w) a (pending w) (fetched w)
  end.

(** An event: its handler, then the renders it causes. The previous render
    is the one that showed [w]. *)
Definition step (e : Event) (w : World) : World := render (Some w) (handle e w).

(** The first render of the component, with the context's state [a]. *)
Definition mount (a : Api.t) : World :=
  render None
    (mkWorld _
      (State.mk _ STORY_STATUSES_0_value "" GRID 1 false
                STORY_SORT_OPTIONS_LAST_MODIFIED SORT_DIRECTION_ASC)
      a None []).

Inductive reachable : World → Prop :=
| reachable_mount a : reachable (mount a)
| reachable_step e w : reachable w → reachable (step e w).

End component.
End MyStories.

(** ** The media3p category picker (Media3pCategories) *)

Module Media3pCategories.
Import Js.

Module Category.
Record t : Type := mk { id : string; displayName : string }.
End Category.

(** What a click on a pill calls, in order. *)
Inductive Call : Type :=
| deselectCategory
| setIsExpanded (expanded : bool)
| selectCategory (id : string).

(** The props of a rendered [CategoryPill]. *)
Module CategoryPill.
Record t : Type := mk {
  index : nat;
  isSelected : bool;
  isExpanded : bool;
  key : string;
  title : string;
  onClick : list Call }.
End CategoryPill.

(** [e.id === selectedCategoryId]. *)
Definition is_selected (selectedCategoryId : Nullable string)
    (e : Category.t) : bool :=
  bool_decide (JsVal (Category.id e) = selectedCategoryId).

(** The callback of [map]: [e] is [undefined] when [find] found nothing, and
    reading [e.id] then throws. *)
Definition pill (selectedCategoryId : Nullable string) (isExpanded : bool)
    (i : nat) (e : option Category.t) : Completion CategoryPill.t :=
  match e with
  | None => Throw TypeError
  | Some e =>
      let selected := is_selected selectedCategoryId e in
      Return (CategoryPill.mk i selected isExpanded (Category.id e)
        (Category.displayName e)
        (if selected then [deselectCategory]
         else [setIsExpanded false; selectCategory (Category.id e)]))
  end.

(** [Array.prototype.map] with a callback that may throw: the first throw
    ends the call. *)
Fixpoint map_from {A B} (f : nat → A → Completion B) (i : nat) (l : list A)
    : Completion (list B) :=
  match l with
  | [] => Return []
  | x :: l' =>
      match f i x with
      | Throw e => Throw e
      | Return y =>
          match map_from f (S i) l' with
          | Throw e => Throw e
          | Return ys => Return (y :: ys)
          end
      end
  end.

Definition renderCategories (categories : list Category.t)
    (selectedCategoryId : Nullable string) (isExpanded : bool)
    : Completion (list CategoryPill.t) :=
  map_from (pill selectedCategoryId isExpanded) 0
    (if ToBoolean selectedCategoryId
     then [find (is_selected selectedCategoryId) categories]
     else Some <$> categories).

End Media3pCategories.

(** ** What the "My Stories" view shows *)

Module MyStoriesView.
Import Js MyStories.

(** [orderedStories]: the stories of the order, looked up in [stories];
    an id that is not in the store gives [undefined]. *)
Definition orderedStories {Story : Type} (stories : gmap Z Story)
    (storiesOrderById : list Z) : list (option Story) :=
  (λ storyId, stories !! storyId) <$> storiesOrderById.

(** The value of [storiesView]: [false] (nothing is shown), the
    [InfiniteScroller] around the grid, or the list view. *)
Inductive StoriesView `{Constants} (Story : Type) : Type :=
| Nothing
| InfiniteScroller (isAllDataLoaded : bool)
    (filteredStories : list (option Story))
| StoryListView (filteredStories : list (option Story))
    (storySort : SortOption) (sortDirection : SortDirection).
Global Arguments Nothing {_ Story}.
Global Arguments InfiniteScroller {_ Story} isAllDataLoaded filteredStories.
Global Arguments StoryListView {_ Story} filteredStories storySort
  sortDirection.

(** The value of [BodyContent]. *)
Inductive Body `{Constants} (Story : Type) : Type :=
| LoadingText
| BodyWrapper (view : StoriesView Story)
| NoResults (typeaheadValue : string)
| CreateStoryText.
Global Arguments LoadingText {_ Story}.
Global Arguments BodyWrapper {_ Story} view.
Global Arguments NoResults {_ Story} typeaheadValue.
Global Arguments CreateStoryText {_ Story}.

(** [n > 0] for a count that may be [null] (0) or [undefined] (NaN). *)
Definition gt0 (n : Nullable Z) : bool :=
  match n with
  | JsVal n => (0 <? n)%Z
  | _ => false
  end.

Section view.
Context `{Constants} {Story : Type}.

Definition storiesView (stories : gmap Z Story) (w : World)
    : StoriesView Story :=
  let orderedStories :=
    orderedStories stories (Api.storiesOrderById (api w)) in
  match State.viewStyle (state w) with
  | GRID =>
      if (0 <? Z.of_nat (length orderedStories))%Z
      then InfiniteScroller (State.allPagesLoaded (state w)) orderedStories
      else Nothing
  | LIST =>
      StoryListView orderedStories (State.currentStorySort (state w))
        (State.currentListSortDirection (state w))
  end.

Definition BodyContent (stories : gmap Z Story) (w : World) : Body Story :=
  if Api.isLoading (api w) then LoadingText
  else if gt0 (Api.totalStories (api w)) then
    BodyWrapper (storiesView stories w)
  else if (0 <? Z.of_nat (String.length (State.typeaheadValue (state w))))%Z
  then NoResults (State.typeaheadValue (state w))
  else CreateStoryText.

End view.
End MyStoriesView.

(** ** What the category picker shows *)

Module Media3pCategoriesView.
Import Js Media3pCategories.

(** The props of the [ExpandButton]; its label is the untranslated text. *)
Module ExpandButton.
Record t : Type := mk {
  ariaLabel : string;
  visible : bool;
  isExpanded : bool;
  onClick : list Call }.
End ExpandButton.

(** The children of the [CategorySection]: [null] without categories,
    else the pills and the expand button. *)
Definition Media3pCategories (categories : list Category.t)
    (selectedCategoryId : Nullable string) (isExpanded : bool)
    : Completion (option (list CategoryPill.t * ExpandButton.t)) :=
  if negb (Z.of_nat (length categories) =? 0)%Z then
    match renderCategories categories selectedCategoryId isExpanded with
    | Throw e => Throw e
    | Return pills =>
        Return (Some (pills,
          ExpandButton.mk
            (if isExpanded then "Collapse Categories"
             else "Expand Categories")
            (negb (ToBoolean selectedCategoryId))
            isExpanded
            [setIsExpanded (negb isExpanded)]))
    end
  else Return None.

End Media3pCategoriesView.

(** ** Sample inputs *)

Module Sample.
Import Js Media3p.

Definition variant (imageName : string) (width height : Z) : ImageUrl.t :=
  ImageUrl.mk (JsVal imageName) ("https://images.example/" +:+ imageName)
              "image/jpeg" width height.

Definition small : ImageUrl.t := variant "small" 100 75.
Definition large : ImageUrl.t := variant "large" 300 225.
Definition medium : ImageUrl.t := variant "medium" 200 150.

Definition maria : Author.t := Author.mk "Maria" (JsVal "http://maria.com").

(** An image with size variants of widths 100, 300 and 200, in that order. *)
Definition media (author : Nullable Author.t)
    (imageUrls : Nullable (list ImageUrl.t)) : Media3pMedia.t :=
  Media3pMedia.mk "media/unsplash:1234" "UNSPLASH" "IMAGE" author
    (JsVal "A cat") (JsVal "A cat on a sofa") "2020-06-01T12:00:00Z"
    "2020-06-02T12:00:00Z" "https://api.example/registerUsage"
    imageUrls.

Definition photo : Media3pMedia.t :=
  media (JsVal maria) (JsVal [small; large; medium]).
Definition anonymous_photo : Media3pMedia.t :=
  media JsNull (JsVal [small; large; medium]).

(** The constants as strings, and a dashboard at rest on its first page
    with 3 pages of stories, two of them shown and a search text typed. *)
Definition constants : MyStories.Constants :=
  MyStories.Build_Constants string string string _ _ _
    "publish,draft" "modified" "asc".

Definition dashboard : @MyStories.World constants :=
  MyStories.mkWorld constants
    (MyStories.State.mk constants "publish,draft" "" MyStories.GRID 2 false
       "modified" "asc")
    (MyStories.Api.mk false [11; 12; 13]%Z (JsVal 30%Z) (JsVal 3%Z))
    (Some "cats") [].

Definition empty_store : MyStories.Api.t :=
  MyStories.Api.mk false [] (JsVal 0%Z) (JsVal 0%Z).

Definition cooking : Media3pCategories.Category.t :=
  Media3pCategories.Category.mk "categories/unsplash:c1" "Cooking".
Definition travel : Media3pCategories.Category.t :=
  Media3pCategories.Category.mk "categories/unsplash:c2" "Travel".

Definition thumbnail : Media3p.ImageUrl.t := variant "thumbnail" 300 200.

(** Two variants of the largest width: [large] comes first. *)
Definition tied_photo : Media3pMedia.t :=
  media (JsVal maria) (JsVal [small; large; thumbnail; medium]).

(** A video: not an image. *)
Definition video : Media3pMedia.t :=
  Media3pMedia.mk "media/coverr:77" "COVERR" "VIDEO" JsUndefined
    (JsVal "Waves") JsNull "2020-06-01T12:00:00Z" "2020-06-02T12:00:00Z"
    "https://api.example/registerUsage" JsUndefined.


(** A dashboard on page 2 with a search text, which has just been
    deleted in the search field. *)
Definition searching : @MyStories.World constants :=
  MyStories.mkWorld constants
    (MyStories.State.mk constants "publish,draft" "cats" MyStories.GRID 2
       false "modified" "asc")
    (MyStories.Api.mk false [21; 22]%Z (JsVal 12%Z) (JsVal 3%Z))
    (Some "") [].

Definition five_pages : MyStories.Api.t :=
  MyStories.Api.mk false [11; 12; 13]%Z (JsVal 30%Z) (JsVal 5%Z).

End Sample.

(** * Properties *)

(** ** [Array.prototype.sort] with the comparator of [getFullAsset] *)

Module SortFacts.
Import Js.

Section by_key.
Context {A : Type} (key : A → Z).

Local Abbreviation descending := (Js.descending key).
Local Abbreviation first_max := (Js.first_max key).

Lemma sort_insert_perm (cmp : A → A → Z) x l : sort_insert cmp x l ≡ₚ x :: l.
Proof.
  induction l as [|y l IH]; simpl; [done|].
  destruct (cmp x y <=? 0)%Z; [done|].
  rewrite IH. apply Permutation_swap.
Qed.

Lemma sort_perm (cmp : A → A → Z) l : sort cmp l ≡ₚ l.
Proof.
  induction l as [|x l IH]; simpl; [done|].
  rewrite sort_insert_perm. by rewrite IH.
Qed.

Lemma sort_length (cmp : A → A → Z) l : length (sort cmp l) = length l.
Proof. apply Permutation_length, sort_perm. Qed.

Lemma sort_insert_head x l :
  sort_insert descending x l !! 0%nat =
  match l !! 0%nat with
  | None => Some x
  | Some y => if (key y <=? key x)%Z then Some x else Some y
  end.
Proof.
  destruct l as [|y l]; simpl; [done|]. unfold Js.descending.
  destruct (Z.leb_spec (key y - key x) 0), (Z.leb_spec (key y) (key x));
    simpl; try done; lia.
Qed.

Lemma sort_head l : sort descending l !! 0%nat = first_max l.
Proof.
  induction l as [|x l IH]; simpl; [done|].
  by rewrite sort_insert_head, IH.
Qed.

Lemma first_max_is_Some l : l ≠ [] → is_Some (first_max l).
Proof.
  destruct l as [|x l]; [done|]. intros _. simpl.
  destruct (first_max l) as [y|]; [|by eexists].
  destruct (key y <=? key x)%Z; by eexists.
Qed.

Lemma first_max_spec l u :
  first_max l = Some u → u ∈ l ∧ ∀ v, v ∈ l → (key v ≤ key u)%Z.
Proof.
  revert u. induction l as [|x l IH]; intros u; simpl; [done|].
  destruct (first_max l) as [y|] eqn:Hy.
  - destruct (IH y eq_refl) as [Hin Hmax].
    destruct (Z.leb_spec (key y) (key x)); intros [= <-].
    + split; [left|]. intros v [->|Hv]%elem_of_cons; [lia|].
      specialize (Hmax v Hv). lia.
    + split; [by right|]. intros v [->|Hv]%elem_of_cons; [lia|]. by apply Hmax.
  - intros [= <-]. destruct l as [|z l].
    + split; [left|]. intros v Hv. apply list_elem_of_singleton in Hv as ->. lia.
    + destruct (first_max_is_Some (z :: l)) as [? Hsome]; [done|]. congruence.
Qed.

(** Ties go to the earliest: everything in front of the chosen element is
    strictly smaller. *)
Lemma first_max_earliest l u :
  first_max l = Some u →
  ∃ l1 l2, l = l1 ++ u :: l2 ∧ Forall (λ v, (key v < key u)%Z) l1.
Proof.
  revert u. induction l as [|x l IH]; intros u; simpl; [done|].
  destruct (first_max l) as [y|] eqn:Hy.
  - destruct (IH y eq_refl) as (l1 & l2 & -> & Hlt).
    destruct (Z.leb_spec (key y) (key x)); intros [= <-].
    + by exists [], (l1 ++ y :: l2).
    + exists (x :: l1), l2. split; [done|]. by constructor.
  - intros [= <-]. by exists [], l.
Qed.

Lemma sort_insert_sorted x l :
  StronglySorted (λ a b, (key b ≤ key a)%Z) l →
  StronglySorted (λ a b, (key b ≤ key a)%Z) (sort_insert descending x l).
Proof.
  induction 1 as [|y l Hl IH Hy]; simpl; [by repeat constructor|].
  unfold Js.descending at 1.
  destruct (Z.leb_spec (key y - key x) 0).
  - constructor; [by constructor|]. constructor; [lia|].
    eapply Forall_impl; [exact Hy|]. simpl. intros; lia.
  - constructor; [done|].
    rewrite sort_insert_perm. constructor; [lia|done].
Qed.

Lemma sort_sorted l :
  StronglySorted (λ a b, (key b ≤ key a)%Z) (sort descending l).
Proof.
  induction l as [|x l IH]; simpl; [constructor|]. by apply sort_insert_sorted.
Qed.

(** Stability: the elements of one key keep their order. *)
Lemma sort_insert_stable k x l :
  StronglySorted (λ a b, (key b ≤ key a)%Z) l →
  filter (λ a, key a = k) (sort_insert descending x l) =
  filter (λ a, key a = k) (x :: l).
Proof.
  induction 1 as [|y l Hl IH Hy]; simpl; [done|].
  unfold Js.descending at 1.
  destruct (Z.leb_spec (key y - key x) 0); [done|].
  rewrite (filter_cons _ y), IH, !filter_cons.
  destruct (decide (key y = k)), (decide (key x = k)); try done; lia.
Qed.

Lemma sort_stable k l :
  filter (λ a, key a = k) (sort descending l) = filter (λ a, key a = k) l.
Proof.
  induction l as [|x l IH]; simpl; [done|].
  rewrite sort_insert_stable by apply sort_sorted.
  by rewrite !filter_cons, IH.
Qed.

End by_key.
End SortFacts.

(** ** The resource adapter *)

Module Media3pFacts.
Import Js Media3p SortFacts.

Local Abbreviation by_width :=
  (λ el1 el2 : ImageUrl.t, (ImageUrl.width el2 - ImageUrl.width el1)%Z).

(** The resource built from media [m], sizes [urls] and full asset [u]. *)
Local Abbreviation resource_of m urls u :=
  (Resource.mk (toLowerCase (Media3pMedia.type m)) (ImageUrl.mimeType u)
     (Media3pMedia.createTime m) (ImageUrl.url u) (ImageUrl.width u)
     (ImageUrl.height u) JsNull JsNull (Media3pMedia.name m) JsNull JsNull
     (Media3pMedia.description m) JsNull false urls
     (and_then (Media3pMedia.author m) (λ author,
        Attribution.mk
          (Author.mk (Author.displayName author) (Author.url author))))).

Lemma getUrls_not_image m :
  is_image m = false → getUrls m = (m, Throw (Error "Invalid media type.")).
Proof. intros Hm. unfold getUrls, mbind, M_bind, read. simpl. by rewrite Hm. Qed.

Lemma getUrls_no_array m :
  is_image m = true → (∀ l, Media3pMedia.imageUrls m ≠ JsVal l) →
  getUrls m = (m, Throw TypeError).
Proof.
  intros Hm Hl. unfold getUrls, mbind, M_bind, read. simpl. rewrite Hm.
  destruct (Media3pMedia.imageUrls m) as [| |l]; [done|done|by destruct (Hl l)].
Qed.

Lemma getUrls_image m l :
  is_image m = true → Media3pMedia.imageUrls m = JsVal l →
  ∃ urls, getUrls m = (m, Return urls).
Proof.
  intros Hm Hl. unfold getUrls, mbind, M_bind, read. simpl. rewrite Hm, Hl.
  simpl. by eexists.
Qed.

Lemma getFullAsset_empty m :
  is_image m = true → Media3pMedia.imageUrls m = JsVal [] →
  getFullAsset m =
  (m, Throw (Error "No imageUrls for media resource: [object Object]")).
Proof.
  intros Hm Hl. unfold getFullAsset, mbind, M_bind, read. simpl.
  by rewrite Hm, Hl.
Qed.

Lemma getFullAsset_image m l :
  is_image m = true → Media3pMedia.imageUrls m = JsVal l → l ≠ [] →
  getFullAsset m =
  (Media3pMedia.set_imageUrls m (sort by_width l),
   Return (first_max ImageUrl.width l)).
Proof.
  intros Hm Hl Hne. unfold getFullAsset, mbind, M_bind, read. simpl.
  rewrite Hm, Hl. simpl. destruct l as [|u l]; [done|].
  change (Z.of_nat (length (u :: l)) =? 0)%Z with false. cbv iota.
  unfold write. cbv beta iota.
  by rewrite <- (sort_head ImageUrl.width (u :: l)).
Qed.

(** The whole call on an image with at least one size variant. *)
Lemma getResourceFromMedia3p_image m l :
  is_image m = true → Media3pMedia.imageUrls m = JsVal l → l ≠ [] →
  ∃ urls u,
    getUrls m = (m, Return urls) ∧
    first_max ImageUrl.width l = Some u ∧
    getResourceFromMedia3p m =
    (Media3pMedia.set_imageUrls m (sort by_width l),
     Return (resource_of m urls u)).
Proof.
  intros Hm Hl Hne.
  destruct (getUrls_image m l Hm Hl) as [urls Hurls].
  destruct (first_max_is_Some ImageUrl.width l Hne) as [u Hu].
  exists urls, u. split; [done|]. split; [done|].
  unfold getResourceFromMedia3p, mbind, M_bind at 1. rewrite Hurls.
  unfold M_bind at 1. rewrite (getFullAsset_image m l Hm Hl Hne), Hu.
  reflexivity.
Qed.

(** A call that returns was given an image with at least one size
    variant. *)
Lemma getResourceFromMedia3p_returns m m' r :
  getResourceFromMedia3p m = (m', Return r) →
  is_image m = true ∧
  ∃ l, Media3pMedia.imageUrls m = JsVal l ∧ l ≠ [].
Proof.
  intros Hrun. destruct (is_image m) eqn:Hm.
  - split; [done|]. destruct (Media3pMedia.imageUrls m) as [| |l] eqn:Hl.
    + unfold getResourceFromMedia3p, mbind, M_bind at 1 in Hrun.
      rewrite getUrls_no_array in Hrun; [done|done|congruence].
    + unfold getResourceFromMedia3p, mbind, M_bind at 1 in Hrun.
      rewrite getUrls_no_array in Hrun; [done|done|congruence].
    + exists l. split; [done|]. intros ->.
      destruct (getUrls_image m [] Hm Hl) as [urls Hurls].
      unfold getResourceFromMedia3p, mbind, M_bind at 1 in Hrun.
      rewrite Hurls in Hrun. unfold M_bind at 1 in Hrun.
      by rewrite getFullAsset_empty in Hrun.
  - unfold getResourceFromMedia3p, mbind, M_bind at 1 in Hrun.
    by rewrite getUrls_not_image in Hrun.
Qed.

Lemma variants_nonempty m :
  variants m ≠ [] ↔ ∃ l, Media3pMedia.imageUrls m = JsVal l ∧ l ≠ [].
Proof.
  unfold variants. destruct (Media3pMedia.imageUrls m) as [| |l].
  - split; [done|]. by intros (? & ? & ?).
  - split; [done|]. by intros (? & ? & ?).
  - split; [by exists l|]. by intros (? & [= <-] & ?).
Qed.

(** The call is a function of the media object it is given. *)
Lemma getResourceFromMedia3p_deterministic m1 m2 :
  m1 = m2 → getResourceFromMedia3p m1 = getResourceFromMedia3p m2.
Proof. by intros ->. Qed.

(** What the call does to the media object: nothing when it throws, and the
    sort of the size variants when it returns. *)
Lemma getResourceFromMedia3p_frame m :
  (getResourceFromMedia3p m).1 = m ∨
  ∃ l, Media3pMedia.imageUrls m = JsVal l ∧
       (getResourceFromMedia3p m).1 =
       Media3pMedia.set_imageUrls m (sort by_width l).
Proof.
  destruct (is_image m) eqn:Hm.
  - destruct (Media3pMedia.imageUrls m) as [| |l] eqn:Hl.
    + left. unfold getResourceFromMedia3p, mbind, M_bind at 1.
      rewrite getUrls_no_array; [done|done|congruence].
    + left. unfold getResourceFromMedia3p, mbind, M_bind at 1.
      rewrite getUrls_no_array; [done|done|congruence].
    + destruct (decide (l = [])) as [->|Hne].
      * left. destruct (getUrls_image m [] Hm Hl) as [urls Hurls].
        unfold getResourceFromMedia3p, mbind, M_bind at 1.
        rewrite Hurls. unfold M_bind at 1. by rewrite getFullAsset_empty.
      * right. exists l. split; [done|].
        destruct (getResourceFromMedia3p_image m l Hm Hl Hne)
          as (urls & u & _ & _ & ->). done.
  - left. unfold getResourceFromMedia3p, mbind, M_bind at 1.
    by rewrite getUrls_not_image.
Qed.

(** C1. For an image with a non-empty list of size variants the call
    returns a resource, and there is a variant [u] of the list whose width
    is the largest of all variants and from which the resource's [src],
    [width], [height] and [mimeType] are taken. *)
Theorem full_asset_is_widest m l :
  is_image m = true → Media3pMedia.imageUrls m = JsVal l → l ≠ [] →
  ∃ u m' r,
    getResourceFromMedia3p m = (m', Return r) ∧
    u ∈ l ∧ (∀ v, v ∈ l → (ImageUrl.width v ≤ ImageUrl.width u)%Z) ∧
    Resource.src r = ImageUrl.url u ∧
    Resource.width r = ImageUrl.width u ∧
    Resource.height r = ImageUrl.height u ∧
    Resource.mimeType r = ImageUrl.mimeType u.
Proof.
  intros Hm Hl Hne.
  destruct (getResourceFromMedia3p_image m l Hm Hl Hne)
    as (urls & u & _ & Hu & Hrun).
  destruct (first_max_spec ImageUrl.width l u Hu) as [Hin Hmax].
  exists u. eexists. eexists. split; [exact Hrun|]. by repeat split.
Qed.

Lemma full_asset_is_widest_witness :
  ∃ u m' r,
    getResourceFromMedia3p Sample.photo = (m', Return r) ∧
    u ∈ [Sample.small; Sample.large; Sample.medium] ∧
    (∀ v, v ∈ [Sample.small; Sample.large; Sample.medium] →
          (ImageUrl.width v ≤ ImageUrl.width u)%Z) ∧
    Resource.src r = ImageUrl.url u ∧
    Resource.width r = ImageUrl.width u ∧
    Resource.height r = ImageUrl.height u ∧
    Resource.mimeType r = ImageUrl.mimeType u.
Proof.
  apply (full_asset_is_widest Sample.photo
           [Sample.small; Sample.large; Sample.medium]);
    [reflexivity | reflexivity | discriminate].
Defined.

(** Widths 100, 300, 200: the 300-wide variant is the full asset. *)
Example full_asset_100_300_200 :
  ∃ m' r, getResourceFromMedia3p Sample.photo = (m', Return r) ∧
          Resource.src r = ImageUrl.url Sample.large ∧
          Resource.width r = 300%Z ∧ Resource.height r = 225%Z.
Proof. eexists. eexists. split; [reflexivity|]. by repeat split. Qed.

(** C3, at the sample image: after the call the media object's [imageUrls]
    are in the order 300, 200, 100, not the order 100, 300, 200 they were
    given in; the call has changed the object it was given. *)
Theorem getResourceFromMedia3p_reorders_imageUrls :
  Media3pMedia.imageUrls Sample.photo =
    JsVal [Sample.small; Sample.large; Sample.medium] ∧
  Media3pMedia.imageUrls (getResourceFromMedia3p Sample.photo).1 =
    JsVal [Sample.large; Sample.medium; Sample.small] ∧
  (getResourceFromMedia3p Sample.photo).1 ≠ Sample.photo.
Proof. split; [reflexivity|]. split; [reflexivity|]. discriminate. Qed.

(** C6. The call throws exactly when the media is not an image or has no
    size variant (an empty or missing [imageUrls]); and on an image with at
    least one size variant it returns. *)
Theorem adapter_throws_iff m :
  (throws (getResourceFromMedia3p m).2 ↔
     is_image m = false ∨ variants m = []) ∧
  (is_image m = true ∧ variants m ≠ [] →
     returns (getResourceFromMedia3p m).2).
Proof.
  assert (Hret : is_image m = true ∧ variants m ≠ [] →
                 returns (getResourceFromMedia3p m).2).
  { intros [Hm (l & Hl & Hne)%variants_nonempty].
    destruct (getResourceFromMedia3p_image m l Hm Hl Hne)
      as (urls & u & _ & _ & ->). done. }
  split; [|done]. split.
  - intros Hthrow. destruct (is_image m) eqn:Hm; [|by left]. right.
    destruct (decide (variants m = [])) as [|Hne]; [done|].
    specialize (Hret (conj eq_refl Hne)).
    by destruct ((getResourceFromMedia3p m).2).
  - intros Hcase. destruct (getResourceFromMedia3p m) as [m' [r|e]] eqn:Hrun;
      [|done]. simpl.
    destruct (getResourceFromMedia3p_returns m m' r Hrun) as [Hm Hl].
    apply variants_nonempty in Hl. destruct Hcase; congruence.
Qed.

Lemma adapter_throws_iff_witness :
  (throws (getResourceFromMedia3p Sample.photo).2 ↔
     is_image Sample.photo = false ∨ variants Sample.photo = []) ∧
  returns (getResourceFromMedia3p Sample.photo).2.
Proof.
  split; [exact (proj1 (adapter_throws_iff Sample.photo))|].
  refine (proj2 (adapter_throws_iff Sample.photo) (conj eq_refl _)).
  discriminate.
Defined.

(** Which error, and from where: [getUrls] rejects what is not an image
    and, with a [TypeError], an image without the [imageUrls] array;
    [getFullAsset] rejects the empty array. *)
Lemma adapter_errors m :
  (is_image m = false →
     getResourceFromMedia3p m = (m, Throw (Error "Invalid media type."))) ∧
  (is_image m = true → (∀ l, Media3pMedia.imageUrls m ≠ JsVal l) →
     getResourceFromMedia3p m = (m, Throw TypeError)) ∧
  (is_image m = true → Media3pMedia.imageUrls m = JsVal [] →
     getResourceFromMedia3p m =
     (m, Throw (Error "No imageUrls for media resource: [object Object]"))).
Proof.
  split; [|split].
  - intros Hm. unfold getResourceFromMedia3p, mbind, M_bind at 1.
    by rewrite getUrls_not_image.
  - intros Hm Hl. unfold getResourceFromMedia3p, mbind, M_bind at 1.
    by rewrite getUrls_no_array.
  - intros Hm Hl. destruct (getUrls_image m [] Hm Hl) as [urls Hurls].
    unfold getResourceFromMedia3p, mbind, M_bind at 1.
    rewrite Hurls. unfold M_bind at 1. by rewrite getFullAsset_empty.
Qed.

(** C7 as stated fails for a [null] author: the resource's [attribution]
    is then [null], a value of its own, and not a property that reads as
    missing ([undefined]). *)
Lemma attribution_null_for_null_author :
  ∃ m' r,
    getResourceFromMedia3p Sample.anonymous_photo = (m', Return r) ∧
    Media3pMedia.author Sample.anonymous_photo = JsNull ∧
    Resource.attribution r = JsNull ∧
    Resource.attribution r ≠ JsUndefined.
Proof. eexists. eexists. split; [reflexivity|]. by repeat split. Qed.

(** C7, amended. When the author is present the resource's [attribution]
    is [{author: {displayName, url}}] with the author's display name and
    URL; otherwise no attribution object is built and [attribution] is the
    author's own value, [null] for [null] and [undefined] for
    [undefined]. *)
Theorem attribution_follows_author m m' r :
  getResourceFromMedia3p m = (m', Return r) →
  (∀ a, Media3pMedia.author m = JsVal a →
        Resource.attribution r =
        JsVal (Attribution.mk
                 (Author.mk (Author.displayName a) (Author.url a)))) ∧
  (Media3pMedia.author m = JsNull → Resource.attribution r = JsNull) ∧
  (Media3pMedia.author m = JsUndefined →
   Resource.attribution r = JsUndefined).
Proof.
  intros Hrun.
  destruct (getResourceFromMedia3p_returns m m' r Hrun) as (Hm & l & Hl & Hne).
  destruct (getResourceFromMedia3p_image m l Hm Hl Hne)
    as (urls & u & _ & _ & Hrun').
  rewrite Hrun' in Hrun. injection Hrun as _ <-. simpl.
  split; [|split]; [intros a Ha|intros Ha|intros Ha]; by rewrite Ha.
Qed.

Lemma attribution_follows_author_witness :
  ∃ m' r,
    getResourceFromMedia3p Sample.photo = (m', Return r) ∧
    Resource.attribution r =
    JsVal (Attribution.mk (Author.mk "Maria" (JsVal "http://maria.com"))).
Proof.
  eexists. eexists. split; [reflexivity|].
  apply (proj1 (attribution_follows_author Sample.photo _ _ eq_refl)
           Sample.maria).
  reflexivity.
Defined.

End Media3pFacts.

(** ** The list controller *)

Module MyStoriesFacts.
Import Js MyStories.

Section facts.
Context `{Constants}.

Implicit Types (w r p : World) (prev : option World).

Local Abbreviation page w := (State.currentPageToFetch (state w)).
Local Abbreviation search w := (State.typeaheadValue (state w)).
Local Abbreviation order w := (Api.storiesOrderById (api w)).
Local Abbreviation loaded w := (State.allPagesLoaded (state w)).
Local Abbreviation total w := (Api.totalPages (api w)).
Local Abbreviation searching r :=
  (0 <? Z.of_nat (String.length (State.typeaheadValue (state r))))%Z.

Ltac effects :=
  unfold run_if, fetch_effect, loaded_effect, search_effect, fetchStories,
    clearExistingStoriesOrder, setCurrentPageToFetch, setAllPagesLoaded,
    with_state in *.

Ltac handlers :=
  unfold handle, debounceTypeaheadValue, debounce_elapsed,
    handleViewStyleBarButtonSelected, handleGetData, handleSortChange,
    setStatus, setTypeaheadValue, setViewStyle, setCurrentStorySort,
    setListSortDirection, setCurrentPageToFetch, clearExistingStoriesOrder,
    with_state in *.

(** The effects of a render, one component of the result at a time. The
    tests on the dependencies are kept folded. *)
Ltac by_cases prev r :=
  unfold commit;
  destruct (changed search_deps prev r), (changed loaded_deps prev r),
    (changed fetch_deps prev r); effects;
  destruct (searching r); reflexivity.

Lemma changed_false {D} `{EqDecision D} (deps : World → D) p r :
  deps p = deps r → changed deps (Some p) r = false.
Proof. intros Hd. unfold changed. by apply bool_decide_eq_false_2; intros Hne. Qed.

Lemma changed_true {D} `{EqDecision D} (deps : World → D) p r :
  deps p ≠ deps r → changed deps (Some p) r = true.
Proof. intros Hd. unfold changed. by apply bool_decide_eq_true_2. Qed.

Lemma commit_static prev r : static (commit prev r) = static r.
Proof. by_cases prev r. Qed.

Lemma commit_page prev r :
  page (commit prev r) =
  if changed search_deps prev r && searching r then 1%Z else page r.
Proof. by_cases prev r. Qed.

Lemma commit_order prev r :
  order (commit prev r) =
  if changed search_deps prev r && searching r then [] else order r.
Proof. by_cases prev r. Qed.

Lemma commit_loaded prev r :
  loaded (commit prev r) =
  if changed loaded_deps prev r then ge (page r) (total r) else loaded r.
Proof. by_cases prev r. Qed.

Lemma commit_fetched prev r :
  fetched (commit prev r) =
  if changed fetch_deps prev r then fetched r ++ [params_of r] else fetched r.
Proof. by_cases prev r. Qed.

(** With the dependencies of the previous render, no effect runs. *)
Lemma commit_same_deps p r :
  fetch_deps p = fetch_deps r → loaded_deps p = loaded_deps r →
  commit (Some p) r = r.
Proof.
  intros Hf Hl. unfold commit.
  rewrite (changed_false fetch_deps), (changed_false loaded_deps) by done.
  rewrite (changed_false search_deps); [done|].
  unfold fetch_deps, search_deps in *. congruence.
Qed.

(** The dependencies, and the parameters of a request, are functions of
    the page and of what no effect touches. *)
Lemma deps_eq w w' :
  static w = static w' → page w = page w' →
  fetch_deps w = fetch_deps w' ∧ loaded_deps w = loaded_deps w' ∧
  search_deps w = search_deps w' ∧ params_of w = params_of w'.
Proof.
  unfold static, fetch_deps, loaded_deps, search_deps, params_of.
  intros [= -> -> -> -> -> _ _ _ ->] ->. done.
Qed.

Lemma params_of_deps w w' :
  fetch_deps w = fetch_deps w' → params_of w = params_of w'.
Proof.
  unfold fetch_deps, params_of. by intros [= -> -> -> -> -> ->].
Qed.

(** The second run of the effects sees the search text of the first: the
    page and the order stay. *)
Lemma commit_commit_page prev r :
  page (commit (Some r) (commit prev r)) = page (commit prev r) ∧
  order (commit (Some r) (commit prev r)) = order (commit prev r).
Proof.
  rewrite commit_page, commit_order.
  rewrite (changed_false search_deps); [done|].
  pose proof (commit_static prev r) as Hs. unfold static, search_deps in *.
  congruence.
Qed.

(** After the effects have run twice, a third run has nothing to do. *)
Lemma commit_twice prev r :
  commit (Some (commit prev r)) (commit (Some r) (commit prev r)) =
  commit (Some r) (commit prev r).
Proof.
  destruct (commit_commit_page prev r) as [Hp _].
  pose proof (commit_static (Some r) (commit prev r)) as Hs.
  destruct (deps_eq _ _ Hs Hp) as (Hf & Hl & _).
  by apply commit_same_deps.
Qed.

Lemma settle_done n p r : commit (Some p) r = r → settle n (Some p) r = r.
Proof.
  intros Hc. destruct n as [|n]; unfold settle; fold settle; rewrite Hc;
    [done|]. by rewrite decide_True.
Qed.

(** The renders end: however many more are allowed, the result is that of
    running the effects twice. *)
Lemma settle_fuel n prev r :
  settle (S n) prev r = commit (Some r) (commit prev r).
Proof.
  unfold settle; fold settle. destruct (decide _) as [[Hs Ha]|_].
  - symmetry. apply commit_same_deps; unfold fetch_deps, loaded_deps; congruence.
  - destruct n as [|n]; unfold settle; fold settle; [done|].
    destruct (decide _) as [_|_]; [done|].
    apply settle_done, commit_twice.
Qed.

Lemma render_eq prev r : render prev r = commit (Some r) (commit prev r).
Proof. apply settle_fuel. Qed.

Lemma step_eq e w :
  step e w = commit (Some (handle e w)) (commit (Some w) (handle e w)).
Proof. apply render_eq. Qed.

Lemma render_static prev r : static (render prev r) = static r.
Proof. by rewrite render_eq, !commit_static. Qed.

Lemma render_page prev r :
  page (render prev r) =
  if changed search_deps prev r && searching r then 1%Z else page r.
Proof.
  rewrite render_eq. destruct (commit_commit_page prev r) as [-> _].
  apply commit_page.
Qed.

Lemma render_order prev r :
  order (render prev r) =
  if changed search_deps prev r && searching r then [] else order r.
Proof.
  rewrite render_eq. destruct (commit_commit_page prev r) as [_ ->].
  apply commit_order.
Qed.

Lemma changed_cases {D} `{EqDecision D} (deps : World → D) p r :
  deps p = deps r ∧ changed deps (Some p) r = false ∨
  deps p ≠ deps r ∧ changed deps (Some p) r = true.
Proof.
  destruct (decide (deps p = deps r)) as [Hd|Hd].
  - left. split; [done|]. by apply changed_false.
  - right. split; [done|]. by apply changed_true.
Qed.

Lemma params_of_fields r :
  Params.sortOption (params_of r) = State.currentStorySort (state r) ∧
  Params.searchTerm (params_of r) = search r ∧
  Params.status (params_of r) = State.status (state r) ∧
  Params.page (params_of r) = page r ∧
  Params.sortDirection (params_of r) =
    match State.viewStyle (state r) with
    | LIST => Rhs (State.currentListSortDirection (state r))
    | GRID => JsFalse
    end.
Proof.
  repeat split. unfold params_of, Params.sortDirection.
  by destruct (State.viewStyle (state r)).
Qed.

(** The handlers leave the flag and the requests alone and keep the page
    at 1 or more. *)
Lemma handle_frame e w :
  loaded (handle e w) = loaded w ∧ fetched (handle e w) = fetched w ∧
  ((1 ≤ page w)%Z → (1 ≤ page (handle e w))%Z).
Proof.
  destruct e; handlers; repeat case_match; cbn; repeat split; try done; lia.
Qed.

(** The second run of the effects, when the first has moved the page and
    when it has not. *)
Lemma second_commit_cases prev r :
  page r = page (commit prev r) ∧
    commit (Some r) (commit prev r) = commit prev r ∨
  page r ≠ page (commit prev r) ∧
    changed fetch_deps (Some r) (commit prev r) = true ∧
    changed loaded_deps (Some r) (commit prev r) = true.
Proof.
  set (w1 := commit prev r). pose proof (commit_static prev r) as Hs. fold w1 in Hs.
  destruct (decide (page r = page w1)) as [Hp|Hp].
  - left. split; [done|].
    destruct (deps_eq r w1) as (Hf & Hl & _); [done|done|].
    by apply commit_same_deps.
  - right. split; [done|].
    split; apply changed_true; unfold fetch_deps, loaded_deps; congruence.
Qed.

(** Running the effects to the end brings the flag and the requests up to
    date with whatever came before. *)
Lemma render_inv prev r :
  (1 ≤ page r)%Z →
  (changed loaded_deps prev r = false → loaded r = ge (page r) (total r)) →
  (changed fetch_deps prev r = false → last (fetched r) = Some (params_of r)) →
  (1 ≤ page (render prev r))%Z ∧
  loaded (render prev r) = ge (page (render prev r)) (total (render prev r)) ∧
  last (fetched (render prev r)) = Some (params_of (render prev r)).
Proof.
  intros Hpage Hloaded Hlast. rewrite render_eq.
  assert ((1 ≤ page (commit prev r))%Z) as Hp1.
  { rewrite commit_page. case_match; [done|lia]. }
  destruct (second_commit_cases prev r) as [[Hp ->]|(Hp & Hf & Hl)];
    set (w1 := commit prev r) in *.
  - split; [done|].
    pose proof (commit_static prev r) as Hs. fold w1 in Hs.
    destruct (deps_eq r w1 (eq_sym Hs) Hp) as (_ & _ & _ & Hpar).
    assert (total w1 = total r) as Ht by (unfold static in Hs; congruence).
    rewrite <- Hp, Ht, <- Hpar. unfold w1.
    rewrite commit_loaded, commit_fetched. split.
    + destruct (changed loaded_deps prev r); [done|by apply Hloaded].
    + destruct (changed fetch_deps prev r); [by rewrite last_snoc|by apply Hlast].
  - destruct (commit_commit_page prev r) as [Hp2 _]. fold w1 in Hp2.
    pose proof (commit_static (Some r) w1) as Hs.
    destruct (deps_eq _ _ Hs Hp2) as (_ & _ & _ & Hpar).
    assert (total (commit (Some r) w1) = total w1) as Ht
      by (unfold static in Hs; congruence).
    rewrite Hp2, Ht, Hpar, commit_loaded, commit_fetched, Hf, Hl.
    by rewrite last_snoc.
Qed.

(** What holds whenever the component has come to rest: the page is at
    least 1, the flag is the comparison of the page with the total, and the
    last request made is the one for the present state. *)
Lemma reachable_inv w :
  reachable w →
  (1 ≤ page w)%Z ∧ loaded w = ge (page w) (total w) ∧
  last (fetched w) = Some (params_of w).
Proof.
  induction 1 as [a|e w _ (Hpage & Hloaded & Hlast)].
  - apply render_inv; [done|done|done].
  - destruct (handle_frame e w) as (Hl & Hf & Hp).
    apply render_inv; [by apply Hp| |].
    + intros Hc. destruct (changed_cases loaded_deps w (handle e w))
        as [[Hd _]|[_ Hd]]; [|congruence].
      rewrite Hl, Hloaded. unfold loaded_deps in Hd. congruence.
    + intros Hc. destruct (changed_cases fetch_deps w (handle e w))
        as [[Hd _]|[_ Hd]]; [|congruence].
      by rewrite Hf, Hlast, (params_of_deps _ _ Hd).
Qed.

(** The comparison of the flag, case by case. *)
Lemma ge_cases (a : Z) :
  (∀ n, ge a (JsVal n) = true ↔ (n ≤ a)%Z) ∧
  ge a JsUndefined = false ∧
  (ge a JsNull = true ↔ (0 ≤ a)%Z).
Proof. unfold ge. split; [|split]; [intros n| |]; try done; apply Z.leb_le. Qed.

(** C2. Whenever the component is at rest, the "all pages loaded" flag is
    true exactly when the current page is at least the total number of
    pages; it is a boolean in every case: true when the total is zero and
    false when the total is undefined. *)
Theorem allPagesLoaded_derived w :
  reachable w →
  (∀ n, total w = JsVal n → (loaded w = true ↔ (n ≤ page w)%Z)) ∧
  (total w = JsVal 0%Z → loaded w = true) ∧
  (total w = JsUndefined → loaded w = false).
Proof.
  intros (Hpage & -> & _)%reachable_inv.
  destruct (ge_cases (page w)) as (Hn & Hu & _).
  split; [|split].
  - intros n ->. apply Hn.
  - intros ->. apply Hn. lia.
  - by intros ->.
Qed.

(** C4. When the debounce timer elapses with a search text that is not
    empty and differs from the present one, the component comes to rest
    with an empty ordering index, on page 1 and with the new search text. *)
Theorem search_resets_order_and_page w v :
  pending w = Some v → v ≠ search w → v ≠ "" →
  order (step DebounceElapsed w) = [] ∧
  page (step DebounceElapsed w) = 1%Z ∧
  search (step DebounceElapsed w) = v.
Proof.
  intros Hv Hne Hv0. unfold step.
  assert (search (handle DebounceElapsed w) = v) as Hs.
  { handlers. by rewrite Hv. }
  rewrite render_order, render_page.
  pose proof (render_static (Some w) (handle DebounceElapsed w)) as Hst.
  rewrite (changed_true search_deps) by (unfold search_deps; congruence).
  rewrite Hs. destruct v as [|c v]; [done|].
  split; [done|]. split; [done|]. unfold static in Hst. congruence.
Qed.

(** C5. Load more: with no fetch in flight the component comes to rest on
    the next page; with a fetch in flight nothing changes at all. *)
Theorem load_more w :
  (Api.isLoading (api w) = false →
     page (step GetData w) = (page w + 1)%Z) ∧
  (Api.isLoading (api w) = true → step GetData w = w).
Proof.
  split; intros Hl.
  - unfold step. rewrite render_page.
    assert (handle GetData w =
            setCurrentPageToFetch (page w + 1) w) as ->.
    { handlers. by rewrite Hl. }
    by rewrite (changed_false search_deps).
  - rewrite step_eq.
    assert (handle GetData w = w) as ->. { handlers. by rewrite Hl. }
    rewrite (commit_same_deps w w) by done. by apply commit_same_deps.
Qed.

(** The requests of a render: the one of the first run of the effects, when
    a dependency of the fetch has changed, and the one of the second run,
    when the first has moved the page. *)
Lemma render_fetched prev r :
  ∃ new,
    fetched (render prev r) = fetched r ++ new ∧
    Forall (λ q, q = params_of r ∨ q = params_of (render prev r)) new ∧
    (changed fetch_deps prev r = true →
     last new = Some (params_of (render prev r))).
Proof.
  rewrite render_eq.
  destruct (second_commit_cases prev r) as [[Hp ->]|(Hp & Hf & Hl)].
  - pose proof (commit_static prev r) as Hs.
    destruct (deps_eq r (commit prev r) (eq_sym Hs) Hp) as (_ & _ & _ & <-).
    rewrite commit_fetched. destruct (changed fetch_deps prev r).
    + exists [params_of r]. split; [done|]. split; [|done].
      constructor; [by left|constructor].
    + exists []. rewrite app_nil_r. split; [done|]. split; [constructor|done].
  - destruct (commit_commit_page prev r) as [Hp2 _].
    pose proof (commit_static (Some r) (commit prev r)) as Hs.
    destruct (deps_eq _ _ Hs Hp2) as (_ & _ & _ & ->).
    rewrite commit_fetched, Hf, commit_fetched.
    destruct (changed fetch_deps prev r).
    + exists [params_of r; params_of (commit prev r)].
      rewrite <- app_assoc. split; [done|]. split; [|done].
      constructor; [by left|]. constructor; [by right|constructor].
    + exists [params_of (commit prev r)]. split; [done|]. split; [|done].
      constructor; [by right|constructor].
Qed.

(** C8. The requests an event causes: each carries the sort option, the
    search text and the status of the state the component comes to rest in,
    a page (that of the render it was made in), and as sort direction the
    current direction in the list view and [false], no direction, in any
    other view. When one of the five values or the view has changed, there
    is such a request and the last one carries the final page as well. *)
Theorem fetch_requests e w :
  ∃ new,
    fetched (step e w) = fetched w ++ new ∧
    Forall (λ q,
      Params.sortOption q = State.currentStorySort (state (step e w)) ∧
      Params.searchTerm q = search (step e w) ∧
      Params.status q = State.status (state (step e w)) ∧
      (Params.page q = page (handle e w) ∨ Params.page q = page (step e w)) ∧
      Params.sortDirection q =
        match State.viewStyle (state (step e w)) with
        | LIST => Rhs (State.currentListSortDirection (state (step e w)))
        | GRID => JsFalse
        end) new ∧
    (fetch_deps w ≠ fetch_deps (step e w) →
     last new = Some (params_of (step e w))).
Proof.
  destruct (render_fetched (Some w) (handle e w)) as (new & Hnew & Hall & Hlast).
  fold (step e w) in Hnew, Hall, Hlast.
  destruct (handle_frame e w) as (_ & Hf & _). rewrite Hf in Hnew.
  exists new. split; [done|]. split.
  - pose proof (render_static (Some w) (handle e w)) as Hs.
    fold (step e w) in Hs.
    eapply Forall_impl; [exact Hall|]. intros q Hq.
    destruct (params_of_fields (handle e w)) as (H1 & H2 & H3 & H4 & H5).
    destruct (params_of_fields (step e w)) as (G1 & G2 & G3 & G4 & G5).
    unfold static in Hs. injection Hs as Ea Eb Ec Ed Ee _ _ _ _.
    destruct Hq as [->| ->].
    + rewrite H1, H2, H3, H4, H5. rewrite Ea, Eb, Ec, Ed, Ee. by repeat split; try left.
    + rewrite G1, G2, G3, G4, G5. by repeat split; try right.
  - intros Hd. apply Hlast.
    destruct (changed_cases fetch_deps w (handle e w)) as [[He _]|[_ Hc]];
      [|done].
    exfalso. apply Hd. rewrite He.
    pose proof (render_static (Some w) (handle e w)) as Hs.
    pose proof (render_page (Some w) (handle e w)) as Hp.
    rewrite (changed_false search_deps) in Hp
      by (unfold fetch_deps, search_deps in *; congruence).
    fold (step e w) in Hs, Hp.
    by destruct (deps_eq _ _ Hs Hp) as (-> & _).
Qed.

(** C9. The sort-change handler of the view controls clears the order,
    sets the page to 1 and then sets the sort option; the component comes
    to rest with an empty ordering index, on page 1 and with the new sort
    option. *)
Theorem sort_change_resets w sort :
  handle (SortChange sort) w =
    setCurrentStorySort sort
      (setCurrentPageToFetch 1 (clearExistingStoriesOrder w)) ∧
  order (step (SortChange sort) w) = [] ∧
  page (step (SortChange sort) w) = 1%Z ∧
  State.currentStorySort (state (step (SortChange sort) w)) = sort.
Proof.
  split; [done|]. unfold step.
  rewrite render_order, render_page.
  pose proof (render_static (Some w) (handle (SortChange sort) w)) as Hs.
  split; [by case_match|]. split; [by case_match|].
  apply (f_equal (λ t, t.1.1.1.1.1.2)) in Hs. exact Hs.
Qed.

(** The sort-change handler of the list view itself sets the sort option
    only: the page stays. *)
Lemma list_sort_change_keeps_page w sort :
  page (step (ListSortChange sort) w) = page w.
Proof.
  unfold step. rewrite render_page. by rewrite (changed_false search_deps).
Qed.

End facts.

Lemma allPagesLoaded_derived_witness :
  State.allPagesLoaded (state (mount (H := Sample.constants) Sample.empty_store))
  = true.
Proof.
  apply (proj1 (proj2 (allPagesLoaded_derived
           (mount (H := Sample.constants) Sample.empty_store)
           (reachable_mount _)))).
  reflexivity.
Defined.

Lemma search_resets_order_and_page_witness :
  Api.storiesOrderById (api (step DebounceElapsed Sample.dashboard)) = [] ∧
  State.currentPageToFetch (state (step DebounceElapsed Sample.dashboard)) = 1%Z ∧
  State.typeaheadValue (state (step DebounceElapsed Sample.dashboard)) = "cats".
Proof.
  apply (search_resets_order_and_page Sample.dashboard "cats");
    [reflexivity | discriminate | discriminate].
Defined.

Lemma load_more_witness :
  State.currentPageToFetch (state (step GetData Sample.dashboard)) = 3%Z.
Proof.
  apply (proj1 (load_more Sample.dashboard)). reflexivity.
Defined.

End MyStoriesFacts.

(** ** The category picker *)

Module Media3pCategoriesFacts.
Import Js Media3pCategories.

Lemma find_Some {A} (p : A → bool) l x :
  find p l = Some x → x ∈ l ∧ p x = true.
Proof.
  induction l as [|y l IH]; simpl; [done|].
  destruct (p y) eqn:Hy.
  - intros [= <-]. split; [left|done].
  - intros [Hin Hx]%IH. split; [by right|done].
Qed.

Lemma find_None {A} (p : A → bool) l :
  find p l = None ↔ ∀ x, x ∈ l → p x = false.
Proof.
  induction l as [|y l IH]; simpl.
  - split; [|done]. intros _ x Hx. by apply elem_of_nil in Hx.
  - destruct (p y) eqn:Hy.
    + split; [done|]. intros Hall. specialize (Hall y). rewrite Hy in Hall.
      discriminate Hall. left.
    + rewrite IH. split.
      * intros Hall x [->|Hx]%elem_of_cons; [done|by apply Hall].
      * intros Hall x Hx. apply Hall. by right.
Qed.

(** Without a selection every category gets its pill, in order. *)
Lemma map_from_all sel isExpanded i (categories : list Category.t) :
  ∃ pills,
    map_from (pill sel isExpanded) i (Some <$> categories) = Return pills ∧
    CategoryPill.key <$> pills = Category.id <$> categories.
Proof.
  revert i. induction categories as [|c l IH]; intros i.
  - by exists [].
  - rewrite !fmap_cons. cbn [map_from pill].
    destruct (IH (S i)) as (pills & -> & Hkeys).
    eexists. split; [done|]. rewrite fmap_cons. by rewrite Hkeys.
Qed.

(** When [renderCategories] throws: there is a selection and no category
    has its id. *)
Lemma renderCategories_throws categories sel isExpanded :
  throws (renderCategories categories sel isExpanded) ↔
  ToBoolean sel = true ∧
  ∀ c, c ∈ categories → JsVal (Category.id c) ≠ sel.
Proof.
  unfold renderCategories. destruct (ToBoolean sel) eqn:Hsel.
  - destruct (find (is_selected sel) categories) as [c|] eqn:Hfind; simpl.
    + split; [done|]. intros [_ Hall].
      apply find_Some in Hfind as [Hin Hc].
      apply bool_decide_eq_true in Hc. by apply (Hall c).
    + split; [|done]. intros _. split; [done|]. intros c Hin.
      apply (proj1 (find_None _ _) Hfind) in Hin.
      by apply bool_decide_eq_false in Hin.
  - destruct (map_from_all sel isExpanded 0 categories) as (pills & -> & _).
    simpl. split; [done|]. by intros [? _].
Qed.

(** C10. When [selectedCategoryId] is set (truthy) and is the id of a
    category of the list, [renderCategories] does not throw: it returns
    exactly one pill, that of a category of the list with this id, marked
    selected. *)
Theorem selected_category_renders_one_pill categories sel isExpanded :
  ToBoolean sel = true →
  (∃ c, c ∈ categories ∧ JsVal (Category.id c) = sel) →
  ¬ throws (renderCategories categories sel isExpanded) ∧
  ∃ c, c ∈ categories ∧ JsVal (Category.id c) = sel ∧
       renderCategories categories sel isExpanded =
       Return [CategoryPill.mk 0 true isExpanded (Category.id c)
                 (Category.displayName c) [deselectCategory]].
Proof.
  intros Hsel (c0 & Hin0 & Hid0). split.
  - rewrite renderCategories_throws. intros [_ Hall]. by apply (Hall c0).
  - unfold renderCategories. rewrite Hsel.
    destruct (find (is_selected sel) categories) as [c|] eqn:Hfind.
    + destruct (find_Some _ _ _ Hfind) as [Hin Hc].
      exists c. split; [done|]. split; [by apply bool_decide_eq_true in Hc|].
      simpl. by rewrite Hc.
    + apply (proj1 (find_None _ _) Hfind) in Hin0.
      apply bool_decide_eq_false in Hin0. done.
Qed.

Lemma selected_category_renders_one_pill_witness :
  ¬ throws (renderCategories [Sample.cooking; Sample.travel]
              (JsVal "categories/unsplash:c2") false) ∧
  ∃ c, c ∈ [Sample.cooking; Sample.travel] ∧
       JsVal (Category.id c) = JsVal "categories/unsplash:c2" ∧
       renderCategories [Sample.cooking; Sample.travel]
         (JsVal "categories/unsplash:c2") false =
       Return [CategoryPill.mk 0 true false (Category.id c)
                 (Category.displayName c) [deselectCategory]].
Proof.
  apply (selected_category_renders_one_pill [Sample.cooking; Sample.travel]
           (JsVal "categories/unsplash:c2") false); [reflexivity|].
  exists Sample.travel. split; [|reflexivity]. right. left.
Defined.

(** A selection that is no category's id makes the lookup come back empty
    and the rendering throw. *)
Example renderCategories_unknown_selection :
  renderCategories [Sample.cooking; Sample.travel]
    (JsVal "categories/unsplash:c9") false = Throw TypeError.
Proof. reflexivity. Qed.

End Media3pCategoriesFacts.

(** * Further properties *)

(** ** Sorting what is sorted, and the [Map] behind [sizes] *)

Module JsFacts.
Import Js SortFacts.

Lemma sort_of_sorted {A} (key : A → Z) l :
  StronglySorted (λ a b, (key b ≤ key a)%Z) l → sort (descending key) l = l.
Proof.
  induction 1 as [|x l Hl IH Hx]; simpl; [done|]. rewrite IH.
  destruct l as [|y l]; [done|]. simpl. unfold descending.
  apply Forall_cons in Hx as [Hy _].
  by rewrite (proj2 (Z.leb_le _ _)) by lia.
Qed.

Lemma sort_sort {A} (key : A → Z) l :
  sort (descending key) (sort (descending key) l) = sort (descending key) l.
Proof. apply sort_of_sorted, sort_sorted. Qed.

Section map_facts.
Context {V : Type}.
Implicit Types (mp entries : list (Nullable string * V)).
Implicit Types (o : gmap string V).

Lemma Map_set_elem k v mp kv : kv ∈ Map_set k v mp → kv = (k, v) ∨ kv ∈ mp.
Proof.
  induction mp as [|[k' v'] mp IH]; simpl.
  - intros ->%list_elem_of_singleton. by left.
  - destruct (decide (k' = k)) as [->|Hne].
    + intros [->|Hin]%elem_of_cons; [by left|]. right. by right.
    + intros [->|Hin]%elem_of_cons; [right; left|].
      destruct (IH Hin) as [->|Hin']; [by left|]. right. by right.
Qed.

Lemma Map_set_key k v mp : k ∈ (Map_set k v mp).*1.
Proof.
  induction mp as [|[k' v'] mp IH]; simpl; [left|].
  destruct (decide (k' = k)) as [->|Hne]; simpl; [left|by right].
Qed.

Lemma Map_set_keys k v mp k' : k' ∈ mp.*1 → k' ∈ (Map_set k v mp).*1.
Proof.
  induction mp as [|[k1 v1] mp IH]; simpl; [by intros ?%elem_of_nil|].
  destruct (decide (k1 = k)) as [->|Hne]; simpl.
  - intros [->|Hin]%elem_of_cons; [left|by right].
  - intros [->|Hin]%elem_of_cons; [left|]. right. by apply IH.
Qed.

Lemma new_Map_elem entries kv : kv ∈ new_Map entries → kv ∈ entries.
Proof.
  unfold new_Map.
  assert (∀ acc, kv ∈ foldl (λ mp kv, Map_set kv.1 kv.2 mp) acc entries →
                 kv ∈ acc ∨ kv ∈ entries) as Hgen.
  { induction entries as [|[k v] entries IH]; intros acc; simpl; [by left|].
    intros [[->|Hin]%Map_set_elem|Hin]%IH.
    - right. left.
    - by left.
    - right. by right. }
  intros [Hin|Hin]%Hgen; [by apply elem_of_nil in Hin|done].
Qed.

Lemma new_Map_keys entries k : k ∈ entries.*1 → k ∈ (new_Map entries).*1.
Proof.
  unfold new_Map.
  assert (∀ acc, k ∈ acc.*1 ∨ k ∈ entries.*1 →
     k ∈ (foldl (λ mp kv, Map_set kv.1 kv.2 mp) acc entries).*1) as Hgen.
  { induction entries as [|[k1 v1] entries IH]; intros acc; simpl.
    - intros [Hin|Hin]; [done|by apply elem_of_nil in Hin].
    - intros [Hin|[->|Hin]%elem_of_cons]; apply IH.
      + left. by apply Map_set_keys.
      + left. apply Map_set_key.
      + by right. }
  intros Hin. apply Hgen. by right.
Qed.

Lemma fromEntries_elem entries s e :
  fromEntries entries !! s = Some e →
  ∃ k, (k, e) ∈ entries ∧ ToString k = s.
Proof.
  unfold fromEntries.
  assert (∀ o, foldl (λ o kv, <[ToString kv.1 := kv.2]> o) o entries !! s
               = Some e →
               o !! s = Some e ∨ ∃ k, (k, e) ∈ entries ∧ ToString k = s)
    as Hgen.
  { induction entries as [|[k v] entries IH]; intros o; simpl; [by left|].
    intros [Ho|(k' & Hin & Hk)]%IH.
    - destruct (decide (ToString k = s)) as [Heq|Hne].
      + rewrite Heq, lookup_insert_eq in Ho. injection Ho as ->.
        right. exists k. split; [left|done].
      + rewrite lookup_insert_ne in Ho by done. by left.
    - right. exists k'. split; [by right|done]. }
  intros [Ho|Hin]%Hgen; [by rewrite lookup_empty in Ho|done].
Qed.

Lemma fromEntries_keys entries k :
  k ∈ entries.*1 → is_Some (fromEntries entries !! ToString k).
Proof.
  unfold fromEntries.
  assert (∀ o, is_Some (o !! ToString k) ∨ k ∈ entries.*1 →
     is_Some (foldl (λ o kv, <[ToString kv.1 := kv.2]> o) o entries
              !! ToString k)) as Hgen.
  { induction entries as [|[k1 v1] entries IH]; intros o; simpl.
    - intros [Ho|Hin]; [done|by apply elem_of_nil in Hin].
    - intros [Ho|[->|Hin]%elem_of_cons]; apply IH.
      + left. destruct (decide (ToString k1 = ToString k)) as [->|Hne].
        * rewrite lookup_insert_eq. by eexists.
        * by rewrite lookup_insert_ne.
      + left. rewrite lookup_insert_eq. by eexists.
      + by right. }
  intros Hin. apply Hgen. by right.
Qed.

End map_facts.

(** Distinct images of a list come from distinct elements. *)
Lemma NoDup_fmap_inj_on {A B} (f : A → B) (l : list A) x y :
  NoDup (f <$> l) → x ∈ l → y ∈ l → f x = f y → x = y.
Proof.
  induction l as [|z l IH]; [by intros _ ?%elem_of_nil|].
  rewrite fmap_cons, NoDup_cons. intros [Hz Hnd].
  intros [->|Hx]%elem_of_cons [->|Hy]%elem_of_cons Hf; [done| | |by apply IH].
  - destruct Hz. rewrite Hf. by apply list_elem_of_fmap_2.
  - destruct Hz. rewrite <- Hf. by apply list_elem_of_fmap_2.
Qed.

End JsFacts.

(** ** More on the resource adapter *)

Module Media3pMore.
Import Js Media3p SortFacts JsFacts Media3pFacts.

Local Abbreviation by_width :=
  (λ el1 el2 : ImageUrl.t, (ImageUrl.width el2 - ImageUrl.width el1)%Z).

(** The entry of [sizes] made from variant [u] of media [m]. *)
Local Abbreviation size_of m u :=
  (Size.mk (Media3pMedia.name m) (ImageUrl.url u) (ImageUrl.mimeType u)
           (ImageUrl.width u) (ImageUrl.height u)).

Local Abbreviation size_entry m :=
  (λ u : ImageUrl.t, (ImageUrl.imageName u, size_of m u)).

Lemma getUrls_image_eq m l :
  is_image m = true → Media3pMedia.imageUrls m = JsVal l →
  getUrls m = (m, Return (fromEntries (new_Map (size_entry m <$> l)))).
Proof.
  intros Hm Hl. unfold getUrls, mbind, M_bind, read. simpl.
  by rewrite Hm, Hl.
Qed.

(** A call that returns, in full. *)
Lemma run_returns m m' r :
  getResourceFromMedia3p m = (m', Return r) →
  ∃ l u,
    is_image m = true ∧ Media3pMedia.imageUrls m = JsVal l ∧ l ≠ [] ∧
    first_max ImageUrl.width l = Some u ∧
    m' = Media3pMedia.set_imageUrls m (sort by_width l) ∧
    r = Resource.mk (toLowerCase (Media3pMedia.type m)) (ImageUrl.mimeType u)
          (Media3pMedia.createTime m) (ImageUrl.url u) (ImageUrl.width u)
          (ImageUrl.height u) JsNull JsNull (Media3pMedia.name m) JsNull
          JsNull (Media3pMedia.description m) JsNull false
          (fromEntries (new_Map (size_entry m <$> l)))
          (and_then (Media3pMedia.author m) (λ author,
             Attribution.mk
               (Author.mk (Author.displayName author) (Author.url author)))).
Proof.
  intros Hrun.
  destruct (getResourceFromMedia3p_returns m m' r Hrun) as (Hm & l & Hl & Hne).
  destruct (getResourceFromMedia3p_image m l Hm Hl Hne)
    as (urls & u & Hurls & Hu & Hrun').
  rewrite (getUrls_image_eq m l Hm Hl) in Hurls. injection Hurls as <-.
  rewrite Hrun' in Hrun. injection Hrun as <- <-.
  by exists l, u.
Qed.

(** X1. Ties in width go to the variant that comes first: the full asset
    is a variant [u] such that every variant in front of it is strictly
    narrower and no variant behind it is wider. *)
Theorem full_asset_is_first_widest m l :
  is_image m = true → Media3pMedia.imageUrls m = JsVal l → l ≠ [] →
  ∃ l1 u l2 m' r,
    l = l1 ++ u :: l2 ∧
    Forall (λ v, (ImageUrl.width v < ImageUrl.width u)%Z) l1 ∧
    Forall (λ v, (ImageUrl.width v ≤ ImageUrl.width u)%Z) l2 ∧
    getResourceFromMedia3p m = (m', Return r) ∧
    Resource.src r = ImageUrl.url u ∧
    Resource.mimeType r = ImageUrl.mimeType u ∧
    Resource.width r = ImageUrl.width u ∧
    Resource.height r = ImageUrl.height u.
Proof.
  intros Hm Hl Hne.
  destruct (getResourceFromMedia3p_image m l Hm Hl Hne)
    as (urls & u & _ & Hu & Hrun).
  destruct (first_max_earliest ImageUrl.width l u Hu) as (l1 & l2 & -> & Hlt).
  destruct (first_max_spec ImageUrl.width _ u Hu) as [_ Hmax].
  exists l1, u, l2. eexists. eexists. split; [done|]. split; [done|].
  split; [|by rewrite Hrun].
  apply Forall_forall. intros v Hv. apply Hmax.
  apply elem_of_app. right. by right.
Qed.

Lemma full_asset_is_first_widest_witness :
  ∃ l1 u l2 m' r,
    [Sample.small; Sample.large; Sample.thumbnail; Sample.medium]
      = l1 ++ u :: l2 ∧
    Forall (λ v, (ImageUrl.width v < ImageUrl.width u)%Z) l1 ∧
    Forall (λ v, (ImageUrl.width v ≤ ImageUrl.width u)%Z) l2 ∧
    getResourceFromMedia3p Sample.tied_photo = (m', Return r) ∧
    Resource.src r = ImageUrl.url u ∧
    Resource.mimeType r = ImageUrl.mimeType u ∧
    Resource.width r = ImageUrl.width u ∧
    Resource.height r = ImageUrl.height u.
Proof.
  apply (full_asset_is_first_widest Sample.tied_photo
           [Sample.small; Sample.large; Sample.thumbnail; Sample.medium]);
    [reflexivity | reflexivity | discriminate].
Defined.

(** X2. What a call that returns has done to the media object it was
    given: [imageUrls] holds the same variants sorted from widest to
    narrowest, variants of one width in their former order; every other
    property is as it was. *)
Theorem input_after_return m m' r :
  getResourceFromMedia3p m = (m', Return r) →
  ∃ l l',
    Media3pMedia.imageUrls m = JsVal l ∧
    m' = Media3pMedia.set_imageUrls m l' ∧
    l' ≡ₚ l ∧
    StronglySorted (λ a b, (ImageUrl.width b ≤ ImageUrl.width a)%Z) l' ∧
    ∀ k, filter (λ a, ImageUrl.width a = k) l' =
         filter (λ a, ImageUrl.width a = k) l.
Proof.
  intros (l & u & _ & Hl & _ & _ & -> & _)%run_returns.
  exists l, (sort by_width l). split; [done|]. split; [done|].
  split; [apply sort_perm|]. split.
  - apply (sort_sorted ImageUrl.width).
  - intros k. apply (sort_stable ImageUrl.width).
Qed.

Lemma input_after_return_witness :
  ∃ l l',
    Media3pMedia.imageUrls Sample.photo = JsVal l ∧
    (getResourceFromMedia3p Sample.photo).1 = Media3pMedia.set_imageUrls Sample.photo l' ∧
    l' ≡ₚ l ∧
    StronglySorted (λ a b, (ImageUrl.width b ≤ ImageUrl.width a)%Z) l' ∧
    ∀ k, filter (λ a, ImageUrl.width a = k) l' =
         filter (λ a, ImageUrl.width a = k) l.
Proof.
  exact (input_after_return Sample.photo _ _ eq_refl).
Defined.

(** X3. A call that throws has not touched the media object. *)
Theorem input_unchanged_on_throw m :
  throws (getResourceFromMedia3p m).2 → (getResourceFromMedia3p m).1 = m.
Proof.
  intros Hthrow. destruct (getResourceFromMedia3p_frame m) as [Hsame|Hsort];
    [done|].
  destruct Hsort as (l & Hl & _).
  destruct (adapter_errors m) as (Hnot & Harr & Hempty).
  destruct (is_image m) eqn:Hm; [|by rewrite Hnot].
  destruct (decide (l = [])) as [->|Hne]; [by rewrite Hempty|].
  destruct (getResourceFromMedia3p_image m l Hm Hl Hne)
    as (urls & u & _ & _ & Hrun).
  by rewrite Hrun in Hthrow.
Qed.

Lemma input_unchanged_on_throw_witness :
  (getResourceFromMedia3p (Sample.media JsNull (JsVal []))).1 = Sample.media JsNull (JsVal []).
Proof.
  apply (input_unchanged_on_throw (Sample.media JsNull (JsVal []))).
  exact I.
Defined.

(** X4. Calling the adapter again on the media object as the first call
    left it changes nothing more, and the second resource has the source,
    the MIME type and the dimensions of the first. *)
Theorem second_call m m' r :
  getResourceFromMedia3p m = (m', Return r) →
  ∃ r',
    getResourceFromMedia3p m' = (m', Return r') ∧
    Resource.src r' = Resource.src r ∧
    Resource.mimeType r' = Resource.mimeType r ∧
    Resource.width r' = Resource.width r ∧
    Resource.height r' = Resource.height r.
Proof.
  intros (l & u & Hm & Hl & Hne & Hu & -> & ->)%run_returns.
  set (m' := Media3pMedia.set_imageUrls m (sort by_width l)).
  assert (sort by_width l ≠ []) as Hne'.
  { intros Hnil. apply Hne, length_zero_iff_nil.
    by rewrite <- (sort_length by_width l), Hnil. }
  destruct (getResourceFromMedia3p_image m' (sort by_width l))
    as (urls & u' & _ & Hu' & Hrun); [done|done|done|].
  rewrite <- (sort_head ImageUrl.width) in Hu, Hu'.
  rewrite (sort_sort ImageUrl.width) in Hu'.
  assert (u' = u) as -> by congruence.
  eexists. split.
  - rewrite Hrun. f_equal. unfold m', Media3pMedia.set_imageUrls. simpl.
    by rewrite (sort_sort ImageUrl.width).
  - done.
Qed.

Lemma second_call_witness :
  ∃ r',
    getResourceFromMedia3p (getResourceFromMedia3p Sample.photo).1 = ((getResourceFromMedia3p Sample.photo).1, Return r') ∧
    Resource.src r' = ImageUrl.url Sample.large ∧
    Resource.mimeType r' = ImageUrl.mimeType Sample.large ∧
    Resource.width r' = 300%Z ∧
    Resource.height r' = 225%Z.
Proof.
  exact (second_call Sample.photo _ _ eq_refl).
Defined.

(** X5. The [sizes] of the resource: every entry is made from a size
    variant of the input that has the entry's key as its name, with the
    media's name as [file] and the variant's URL, MIME type, width and
    height; and the name of every variant is a key. *)
Theorem sizes_entries m m' r :
  getResourceFromMedia3p m = (m', Return r) →
  ∃ l,
    Media3pMedia.imageUrls m = JsVal l ∧
    (∀ s e, Resource.sizes r !! s = Some e →
       ∃ u, u ∈ l ∧ ToString (ImageUrl.imageName u) = s ∧ e = size_of m u) ∧
    (∀ u, u ∈ l →
       is_Some (Resource.sizes r !! ToString (ImageUrl.imageName u))).
Proof.
  intros (l & u0 & _ & Hl & _ & _ & _ & ->)%run_returns.
  exists l. split; [done|]. simpl. split.
  - intros s e (k & Hin & Hk)%fromEntries_elem.
    apply new_Map_elem, list_elem_of_fmap in Hin as (u & [= -> ->] & Hu).
    by exists u.
  - intros u Hu. apply fromEntries_keys, new_Map_keys.
    rewrite <- list_fmap_compose.
    apply (list_elem_of_fmap_2 (fst ∘ size_entry m) _ _ Hu).
Qed.

Lemma sizes_entries_witness :
  ∃ r l,
    (getResourceFromMedia3p Sample.photo).2 = Return r ∧
    Media3pMedia.imageUrls Sample.photo = JsVal l ∧
    (∀ s e, Resource.sizes r !! s = Some e →
       ∃ u, u ∈ l ∧ ToString (ImageUrl.imageName u) = s ∧
            e = size_of Sample.photo u) ∧
    (∀ u, u ∈ l →
       is_Some (Resource.sizes r !! ToString (ImageUrl.imageName u))).
Proof.
  destruct (sizes_entries Sample.photo _ _ eq_refl) as (l & Hl & He & Hk).
  eexists. exists l. split; [reflexivity|]. split; [exact Hl|].
  split; [exact He|exact Hk].
Defined.

(** X6. When the size variants have pairwise distinct names, [sizes] maps
    the name of each variant to the entry made from that very variant. *)
Theorem sizes_of_distinct_names m m' r l :
  getResourceFromMedia3p m = (m', Return r) →
  Media3pMedia.imageUrls m = JsVal l →
  NoDup ((λ u, ToString (ImageUrl.imageName u)) <$> l) →
  ∀ u, u ∈ l →
    Resource.sizes r !! ToString (ImageUrl.imageName u) = Some (size_of m u).
Proof.
  intros (l0 & u0 & _ & Hl0 & _ & _ & _ & ->)%run_returns Hl Hnd u Hu.
  assert (l0 = l) as -> by congruence. simpl.
  destruct (fromEntries_keys (new_Map (size_entry m <$> l))
              (ImageUrl.imageName u)) as [e He].
  { apply new_Map_keys. rewrite <- list_fmap_compose.
    apply (list_elem_of_fmap_2 (fst ∘ size_entry m) _ _ Hu). }
  rewrite He. f_equal.
  apply fromEntries_elem in He as (k & Hin & Hk).
  apply new_Map_elem, list_elem_of_fmap in Hin as (u' & [= -> ->] & Hu').
  by rewrite (NoDup_fmap_inj_on _ l u' u Hnd Hu' Hu Hk).
Qed.

Lemma sizes_of_distinct_names_witness :
  ∃ r,
    (getResourceFromMedia3p Sample.photo).2 = Return r ∧
    Resource.sizes r !! "large" =
    Some (Size.mk "media/unsplash:1234" "https://images.example/large"
            "image/jpeg" 300 225).
Proof.
  eexists. split; [reflexivity|].
  refine (sizes_of_distinct_names Sample.photo _ _
            [Sample.small; Sample.large; Sample.medium] eq_refl eq_refl _
            Sample.large _).
  - apply (bool_decide_unpack _). vm_compute. exact I.
  - right. left.
Defined.

(** X7. The properties of a returned resource that do not depend on the
    size variants: [type] is exactly [image] whatever the capitals of the
    input's type, [id] is the media's name, [title] is the media's
    description (not its title), [creationDate] its creation time, [local]
    is false, and [alt], [poster], [posterId], [length] and
    [lengthFormatted] are null. *)
Theorem resource_fields m m' r :
  getResourceFromMedia3p m = (m', Return r) →
  Resource.type r = "image" ∧
  Resource.id r = Media3pMedia.name m ∧
  Resource.title r = Media3pMedia.description m ∧
  Resource.creationDate r = Media3pMedia.createTime m ∧
  Resource.local r = false ∧
  Resource.alt r = JsNull ∧
  Resource.poster r = JsNull ∧ Resource.posterId r = JsNull ∧
  Resource.length r = JsNull ∧ Resource.lengthFormatted r = JsNull.
Proof.
  intros (l & u & Hm & _ & _ & _ & _ & ->)%run_returns. simpl.
  split; [|done]. by apply String.eqb_eq.
Qed.

Lemma resource_fields_witness :
  ∃ r,
    (getResourceFromMedia3p Sample.photo).2 = Return r ∧
    Resource.type r = "image" ∧
    Resource.id r = "media/unsplash:1234" ∧
    Resource.title r = JsVal "A cat on a sofa".
Proof.
  destruct (resource_fields Sample.photo _ _ eq_refl) as (Ht & Hi & Hd & _).
  eexists. split; [reflexivity|]. split; [exact Ht|].
  split; [exact Hi|exact Hd].
Defined.

(** X8. The errors of the adapter: for what is not an image, the error of
    [getUrls] (the like error of [getFullAsset] is never the one thrown);
    for an image without the [imageUrls] array, a [TypeError]; for an image
    with an empty array, the error of [getFullAsset]. *)
Theorem thrown_error m e :
  (getResourceFromMedia3p m).2 = Throw e →
  e ≠ Error "Invalid media type for media resource: [object Object]" ∧
  (is_image m = false ∧ e = Error "Invalid media type." ∨
   is_image m = true ∧ (∀ l, Media3pMedia.imageUrls m ≠ JsVal l) ∧
     e = TypeError ∨
   is_image m = true ∧ Media3pMedia.imageUrls m = JsVal [] ∧
     e = Error "No imageUrls for media resource: [object Object]").
Proof.
  intros Hthrow.
  destruct (adapter_errors m) as (Hnot & Harr & Hempty).
  destruct (is_image m) eqn:Hm.
  - destruct (Media3pMedia.imageUrls m) as [| |l] eqn:Hl.
    + rewrite Harr in Hthrow by done. injection Hthrow as <-.
      split; [done|]. right. left. by repeat split.
    + rewrite Harr in Hthrow by done. injection Hthrow as <-.
      split; [done|]. right. left. by repeat split.
    + destruct (decide (l = [])) as [->|Hne].
      * rewrite Hempty in Hthrow by done. injection Hthrow as <-.
        split; [done|]. right. right. by repeat split.
      * destruct (getResourceFromMedia3p_image m l Hm Hl Hne)
          as (urls & u & _ & _ & Hrun).
        by rewrite Hrun in Hthrow.
  - rewrite Hnot in Hthrow by done. injection Hthrow as <-.
    split; [done|]. by left.
Qed.

Lemma thrown_error_witness :
  Error "Invalid media type."
    ≠ Error "Invalid media type for media resource: [object Object]" ∧
  (is_image Sample.video = false ∧
     Error "Invalid media type." = Error "Invalid media type." ∨
   is_image Sample.video = true ∧
     (∀ l, Media3pMedia.imageUrls Sample.video ≠ JsVal l) ∧
     Error "Invalid media type." = TypeError ∨
   is_image Sample.video = true ∧
     Media3pMedia.imageUrls Sample.video = JsVal [] ∧
     Error "Invalid media type."
       = Error "No imageUrls for media resource: [object Object]").
Proof.
  apply (thrown_error Sample.video (Error "Invalid media type.")).
  reflexivity.
Defined.

End Media3pMore.

(** ** More on the list controller *)

Module MyStoriesMore.
Import Js MyStories MyStoriesView MyStoriesFacts.

Section more.
Context `{Constants}.

Implicit Types (w r p : World) (prev : option World).

Local Abbreviation page w := (State.currentPageToFetch (state w)).
Local Abbreviation search w := (State.typeaheadValue (state w)).
Local Abbreviation order w := (Api.storiesOrderById (api w)).
Local Abbreviation loaded w := (State.allPagesLoaded (state w)).
Local Abbreviation total w := (Api.totalPages (api w)).
Local Abbreviation view w := (State.viewStyle (state w)).
Local Abbreviation searching r :=
  (0 <? Z.of_nat (String.length (State.typeaheadValue (state r))))%Z.

Ltac handlers :=
  unfold handle, debounceTypeaheadValue, debounce_elapsed,
    handleViewStyleBarButtonSelected, handleGetData, handleSortChange,
    setStatus, setTypeaheadValue, setViewStyle, setCurrentStorySort,
    setListSortDirection, setCurrentPageToFetch, clearExistingStoriesOrder,
    with_state in *.

Lemma api_ext w w' : static w = static w' → order w = order w' → api w = api w'.
Proof.
  unfold static. destruct (api w), (api w'). cbn.
  intros [= _ _ _ _ _ _ -> -> ->] ->. done.
Qed.

Lemma state_ext w w' :
  static w = static w' → page w = page w' → loaded w = loaded w' →
  state w = state w'.
Proof.
  unfold static. destruct (state w), (state w'). cbn.
  intros [= -> -> -> -> -> _ _ _ _] -> ->. done.
Qed.

(** The requests and the flag of a render, exactly. *)
Lemma render_fetched_exact prev r :
  fetched (render prev r) =
  (fetched r ++ if changed fetch_deps prev r then [params_of r] else []) ++
  if decide (page r = page (render prev r)) then []
  else [params_of (render prev r)].
Proof.
  rewrite render_eq.
  destruct (second_commit_cases prev r) as [[Hp ->]|(Hp & Hf & Hl)].
  - rewrite decide_True by done. rewrite app_nil_r, commit_fetched.
    destruct (changed fetch_deps prev r); [done|by rewrite app_nil_r].
  - destruct (commit_commit_page prev r) as [Hp2 _].
    pose proof (commit_static (Some r) (commit prev r)) as Hs.
    destruct (deps_eq _ _ Hs Hp2) as (_ & _ & _ & ->).
    rewrite decide_False by congruence.
    rewrite commit_fetched, Hf, commit_fetched.
    destruct (changed fetch_deps prev r); [done|by rewrite app_nil_r].
Qed.

Lemma render_loaded_exact prev r :
  loaded (render prev r) =
  if decide (page r = page (render prev r))
  then (if changed loaded_deps prev r then ge (page r) (total r)
        else loaded r)
  else ge (page (render prev r)) (total r).
Proof.
  rewrite render_eq.
  destruct (second_commit_cases prev r) as [[Hp ->]|(Hp & Hf & Hl)].
  - rewrite decide_True by done. apply commit_loaded.
  - destruct (commit_commit_page prev r) as [Hp2 _].
    rewrite decide_False by congruence.
    rewrite commit_loaded, Hl, Hp2.
    pose proof (commit_static prev r) as Hs. unfold static in Hs.
    congruence.
Qed.

(** A render with the search text of the render before: no reset. *)
Lemma render_same_search p r :
  search p = search r →
  page (render (Some p) r) = page r ∧ api (render (Some p) r) = api r ∧
  params_of (render (Some p) r) = params_of r.
Proof.
  intros Hs.
  assert (page (render (Some p) r) = page r) as Hp.
  { by rewrite render_page, (changed_false search_deps). }
  pose proof (render_static (Some p) r) as Hst.
  split; [done|]. split.
  - apply api_ext; [done|].
    by rewrite render_order, (changed_false search_deps).
  - by destruct (deps_eq _ _ Hst Hp) as (_ & _ & _ & ->).
Qed.


(** What the handlers leave alone. *)
Lemma handle_search e w : e ≠ DebounceElapsed → search (handle e w) = search w.
Proof.
  intros Hde. destruct e; handlers; cbn; repeat case_match; done.
Qed.

Lemma handle_api e w :
  (∀ sort, e ≠ SortChange sort) → (∀ a, e ≠ ApiStateChange a) →
  api (handle e w) = api w.
Proof.
  intros Hsort Hapi.
  destruct e; handlers; cbn; repeat case_match; try done; naive_solver.
Qed.

Lemma handle_page e w :
  (∀ sort, e ≠ SortChange sort) → e ≠ GetData →
  page (handle e w) = page w.
Proof.
  intros Hsort Hget.
  destruct e; handlers; cbn; repeat case_match; try done; naive_solver.
Qed.

(** X9. The renders an event causes come to an end: whatever number of
    further renders is allowed, the result is that of [render], and one
    more run of the effects on it finds nothing changed. *)
Theorem renders_terminate n prev r :
  settle (S n) prev r = render prev r ∧
  commit (Some (commit prev r)) (render prev r) = render prev r.
Proof.
  split.
  - by rewrite settle_fuel, render_eq.
  - rewrite render_eq. apply commit_twice.
Qed.

(** X10. Whenever the component is at rest the page is 1 or more, at least
    one request has been made, and the last request made is the one for the
    present status, sort option, search text, page and (in the list view)
    direction. *)
Theorem last_request_is_current w :
  reachable w →
  (1 ≤ page w)%Z ∧ ∃ earlier, fetched w = earlier ++ [params_of w].
Proof.
  intros (Hpage & _ & Hlast)%reachable_inv. split; [done|].
  apply last_Some in Hlast as [earlier ->]. by exists earlier.
Qed.

(** X11. What resets and what does not: only the sort change of the view
    controls and an elapsed debounce touch the order of the stories (the
    store's own updates apart), and only these two and load-more move the
    page. A status filter, a view toggle, the sort option and direction of
    the list view, and typing do neither. *)
Theorem only_search_and_sort_reset w :
  (∀ e, (∀ sort, e ≠ SortChange sort) → e ≠ DebounceElapsed →
        (∀ a, e ≠ ApiStateChange a) → api (step e w) = api w) ∧
  (∀ e, (∀ sort, e ≠ SortChange sort) → e ≠ DebounceElapsed →
        e ≠ GetData → page (step e w) = page w).
Proof.
  split.
  - intros e Hsort Hde Hapi. unfold step.
    destruct (render_same_search w (handle e w)) as (_ & -> & _).
    + symmetry. by apply handle_search.
    + by apply handle_api.
  - intros e Hsort Hde Hget. unfold step.
    destruct (render_same_search w (handle e w)) as (-> & _ & _).
    + symmetry. by apply handle_search.
    + by apply handle_page.
Qed.

Lemma static_fields w w' :
  static w = static w' →
  State.status (state w) = State.status (state w') ∧
  search w = search w' ∧ view w = view w' ∧
  State.currentStorySort (state w) = State.currentStorySort (state w') ∧
  State.currentListSortDirection (state w)
    = State.currentListSortDirection (state w') ∧
  pending w = pending w' ∧
  Api.isLoading (api w) = Api.isLoading (api w') ∧
  Api.totalStories (api w) = Api.totalStories (api w') ∧
  total w = total w'.
Proof. unfold static. by intros [= -> -> -> -> -> -> -> -> ->]. Qed.

Lemma state_fields (s s' : State.t) :
  State.status s = State.status s' →
  State.typeaheadValue s = State.typeaheadValue s' →
  State.viewStyle s = State.viewStyle s' →
  State.currentPageToFetch s = State.currentPageToFetch s' →
  State.allPagesLoaded s = State.allPagesLoaded s' →
  State.currentStorySort s = State.currentStorySort s' →
  State.currentListSortDirection s = State.currentListSortDirection s' →
  s = s'.
Proof. destruct s, s'. cbn. by intros -> -> -> -> -> -> ->. Qed.

(** One toggle of the view style. *)
Lemma toggle_once w :
  let w' := step ViewStyleBarButtonSelected w in
  view w' = (if decide (view w = LIST) then GRID else LIST) ∧
  State.status (state w') = State.status (state w) ∧
  search w' = search w ∧
  State.currentStorySort (state w') = State.currentStorySort (state w) ∧
  State.currentListSortDirection (state w')
    = State.currentListSortDirection (state w) ∧
  page w' = page w ∧ loaded w' = loaded w ∧ api w' = api w ∧
  fetched w' = fetched w ++ [params_of w'].
Proof.
  intros w'. unfold w', step.
  set (r := handle ViewStyleBarButtonSelected w).
  assert (view r = (if decide (view w = LIST) then GRID else LIST)) as Hv.
  { unfold r. handlers. by case_match. }
  assert (State.status (state r) = State.status (state w) ∧
          search r = search w ∧
          State.currentStorySort (state r)
            = State.currentStorySort (state w) ∧
          State.currentListSortDirection (state r)
            = State.currentListSortDirection (state w) ∧
          page r = page w ∧ loaded r = loaded w ∧
          api r = api w ∧ fetched r = fetched w)
    as (F1 & F2 & F3 & F4 & Hpr & Hlr & Ha & Hf).
  { unfold r. handlers. by case_match. }
  destruct (render_same_search w r (eq_sym F2)) as (Hp & Hapi & Hpar).
  destruct (static_fields _ _ (render_static (Some w) r))
    as (E1 & E2 & E3 & E4 & E5 & _).
  assert (fetch_deps w ≠ fetch_deps r) as Hfd.
  { unfold fetch_deps. intros [= Hview _ _ _ _ _]. rewrite Hv in Hview.
    by destruct (view w). }
  assert (loaded_deps w = loaded_deps r) as Hld.
  { unfold loaded_deps. by rewrite Hpr, Ha. }
  rewrite E1, E2, E3, E4, E5, Hp, Hapi, render_loaded_exact,
    render_fetched_exact, Hp, Hpar.
  repeat (destruct (decide (page r = page r)) as [_|?]; [|done]).
  rewrite (changed_true fetch_deps), (changed_false loaded_deps) by done.
  by rewrite app_nil_r, Hf.
Qed.

(** X12. The view toggle flips between grid and list and makes one request,
    for the same page; it keeps the page, the flag and the stories with
    their order; and a second toggle brings the component's state back to
    what it was. *)
Theorem toggle_view w :
  view (step ViewStyleBarButtonSelected w)
    = (if decide (view w = LIST) then GRID else LIST) ∧
  page (step ViewStyleBarButtonSelected w) = page w ∧
  api (step ViewStyleBarButtonSelected w) = api w ∧
  fetched (step ViewStyleBarButtonSelected w) =
    fetched w ++ [params_of (step ViewStyleBarButtonSelected w)] ∧
  state (step ViewStyleBarButtonSelected (step ViewStyleBarButtonSelected w))
    = state w.
Proof.
  destruct (toggle_once w) as (Hv & H1 & H2 & H3 & H4 & Hp & Hl & Ha & Hf).
  split; [done|]. split; [done|]. split; [done|]. split; [done|].
  destruct (toggle_once (step ViewStyleBarButtonSelected w))
    as (Hv' & G1 & G2 & G3 & G4 & Gp & Gl & _).
  apply state_fields; try congruence.
  rewrite Hv', Hv. by destruct (view w).
Qed.


(** X14. Clearing the search text does not reset: when the debounce elapses
    with the empty text, the component comes to rest with an empty search
    text on the page it was on, with the stories and their order as they
    were, after one request for that page. *)
Theorem clearing_search_keeps_page w :
  pending w = Some "" → search w ≠ "" →
  search (step DebounceElapsed w) = "" ∧
  page (step DebounceElapsed w) = page w ∧
  api (step DebounceElapsed w) = api w ∧
  fetched (step DebounceElapsed w) =
    fetched w ++ [params_of (step DebounceElapsed w)].
Proof.
  intros Hpd Hne. unfold step. set (r := handle DebounceElapsed w).
  assert (search r = "" ∧ page r = page w ∧ api r = api w ∧
          fetched r = fetched w) as (Hs & Hp & Ha & Hf).
  { unfold r. handlers. by rewrite Hpd. }
  pose proof (render_static (Some w) r) as Hst.
  destruct (static_fields _ _ Hst) as (_ & E2 & _).
  assert (page (render (Some w) r) = page r) as Hpage.
  { rewrite render_page, Hs. by rewrite andb_false_r. }
  destruct (deps_eq _ _ Hst Hpage) as (_ & _ & _ & Hpar).
  split; [congruence|]. split; [congruence|]. split.
  - rewrite <- Ha. apply api_ext; [done|].
    rewrite render_order, Hs. by rewrite andb_false_r.
  - rewrite render_fetched_exact, Hpage, Hpar, Hf.
    rewrite decide_True by done.
    rewrite (changed_true fetch_deps); [by rewrite app_nil_r|].
    unfold fetch_deps. intros [= _ _ _ _ _ Hsw]. congruence.
Qed.

(** X15. A new, non-empty search text typed on a page other than 1 makes
    two requests: first one for the new text on the stale page, then the
    one for the new text on page 1. On page 1 it makes the latter only. *)
Theorem search_change_requests w v :
  pending w = Some v → v ≠ search w → v ≠ "" →
  ∃ stale,
    Params.searchTerm stale = v ∧ Params.page stale = page w ∧
    Params.searchTerm (params_of (step DebounceElapsed w)) = v ∧
    Params.page (params_of (step DebounceElapsed w)) = 1%Z ∧
    fetched (step DebounceElapsed w) =
      fetched w ++ (if decide (page w = 1%Z) then [] else [stale]) ++
      [params_of (step DebounceElapsed w)].
Proof.
  intros Hpd Hne Hv. unfold step. set (r := handle DebounceElapsed w).
  assert (search r = v ∧ page r = page w ∧ fetched r = fetched w)
    as (Hs & Hp & Hf).
  { unfold r. handlers. by rewrite Hpd. }
  pose proof (render_static (Some w) r) as Hst.
  destruct (static_fields _ _ Hst) as (_ & E2 & _).
  assert (page (render (Some w) r) = 1%Z) as Hpage.
  { rewrite render_page, Hs.
    rewrite (changed_true search_deps) by (unfold search_deps; congruence).
    by destruct v. }
  exists (params_of r). split; [done|]. split; [done|].
  split; [by rewrite <- Hs|]. split; [done|].
  rewrite render_fetched_exact, Hpage, Hp, Hf.
  rewrite (changed_true fetch_deps)
    by (unfold fetch_deps; intros [= _ _ _ _ _ Hsw]; congruence).
  rewrite <- app_assoc. f_equal.
  destruct (decide (page w = 1%Z)) as [H1|H1]; [|done].
  destruct (deps_eq _ _ Hst) as (_ & _ & _ & ->); [congruence|done].
Qed.

(** X16. An update of the store (a response that arrives, the loading
    flag) makes no request and leaves the page alone; the component shows
    the new store, and the flag follows the new total. *)
Theorem store_update w a :
  reachable w →
  fetched (step (ApiStateChange a) w) = fetched w ∧
  page (step (ApiStateChange a) w) = page w ∧
  api (step (ApiStateChange a) w) = a ∧
  loaded (step (ApiStateChange a) w) = ge (page w) (Api.totalPages a).
Proof.
  intros (_ & Hloaded & _)%reachable_inv. unfold step.
  set (r := handle (ApiStateChange a) w).
  assert (state r = state w ∧ api r = a ∧ fetched r = fetched w)
    as (Hs & Ha & Hf) by done.
  destruct (render_same_search w r) as (Hp & Hapi & _); [by rewrite Hs|].
  rewrite render_fetched_exact, render_loaded_exact, Hp, Hapi.
  repeat (destruct (decide (page r = page r)) as [_|?]; [|done]).
  rewrite (changed_false fetch_deps) by (unfold fetch_deps; by rewrite Hs).
  rewrite !app_nil_r, Hs, Ha, Hf. split; [done|]. split; [done|].
  split; [done|].
  destruct (changed_cases loaded_deps w r) as [[Hd ->]|[_ ->]]; [|done].
  unfold loaded_deps in Hd. rewrite Hloaded. congruence.
Qed.


End more.

Section views.
Context `{Constants} {Story : Type}.

Implicit Types (w : World) (stories : gmap Z Story).

(** X18. The infinite scroller, and with it load-more, is on the page
    exactly when nothing is loading, the store counts more than zero
    stories, the view is the grid and the order is not empty; it is then
    given the present flag and the ordered stories. *)
Theorem scroller_shown_iff stories w isAllDataLoaded filteredStories :
  BodyContent stories w
    = BodyWrapper (InfiniteScroller isAllDataLoaded filteredStories) ↔
  Api.isLoading (api w) = false ∧
  gt0 (Api.totalStories (api w)) = true ∧
  State.viewStyle (state w) = GRID ∧
  Api.storiesOrderById (api w) ≠ [] ∧
  isAllDataLoaded = State.allPagesLoaded (state w) ∧
  filteredStories = orderedStories stories (Api.storiesOrderById (api w)).
Proof.
  unfold BodyContent, storiesView, orderedStories.
  destruct (Api.isLoading (api w)); [by split; [|intros (? & _)]|].
  destruct (gt0 (Api.totalStories (api w)));
    [|split; [by repeat case_match|by intros (_ & ? & _)]].
  destruct (State.viewStyle (state w));
    [|split; [done|by intros (_ & _ & ? & _)]].
  destruct (Api.storiesOrderById (api w)) as [|storyId ids]; cbn.
  - split; [done|]. by intros (_ & _ & _ & ? & _).
  - split.
    + intros [= <- <-]. by repeat split.
    + by intros (_ & _ & _ & _ & -> & ->).
Qed.

(** X19. A toggle of the view shows the same stories in the same order:
    from the grid, the list view gets the ordered stories the grid had,
    with the present sort option and direction; from the list, the grid
    gets the ordered stories of the list, in the scroller unless there are
    none. *)
Theorem toggle_shows_same_stories stories w :
  (State.viewStyle (state w) = GRID →
   storiesView stories (step ViewStyleBarButtonSelected w) =
   StoryListView (orderedStories stories (Api.storiesOrderById (api w)))
     (State.currentStorySort (state w))
     (State.currentListSortDirection (state w))) ∧
  (State.viewStyle (state w) = LIST →
   storiesView stories (step ViewStyleBarButtonSelected w) =
   if decide (Api.storiesOrderById (api w) = []) then Nothing
   else InfiniteScroller (State.allPagesLoaded (state w))
          (orderedStories stories (Api.storiesOrderById (api w)))).
Proof.
  destruct (toggle_once w) as (Hv & _ & _ & H3 & H4 & _ & Hl & Ha & _).
  unfold storiesView. rewrite Hv, H3, H4, Hl, Ha.
  split; intros ->; [done|]. cbn. unfold orderedStories.
  by destruct (Api.storiesOrderById (api w)).
Qed.

End views.

Lemma last_request_is_current_witness :
  (1 ≤ State.currentPageToFetch
         (state (mount (H := Sample.constants) Sample.empty_store)))%Z ∧
  ∃ earlier,
    fetched (mount (H := Sample.constants) Sample.empty_store) =
    earlier ++ [params_of (mount (H := Sample.constants) Sample.empty_store)].
Proof.
  apply (last_request_is_current
           (mount (H := Sample.constants) Sample.empty_store)).
  apply reachable_mount.
Defined.

Lemma clearing_search_keeps_page_witness :
  State.typeaheadValue (state (step DebounceElapsed Sample.searching)) = "" ∧
  State.currentPageToFetch (state (step DebounceElapsed Sample.searching))
    = 2%Z ∧
  api (step DebounceElapsed Sample.searching) = api Sample.searching ∧
  fetched (step DebounceElapsed Sample.searching) =
    fetched Sample.searching ++
    [params_of (step DebounceElapsed Sample.searching)].
Proof.
  apply (clearing_search_keeps_page Sample.searching);
    [reflexivity | discriminate].
Defined.

Lemma search_change_requests_witness :
  ∃ stale,
    Params.searchTerm stale = "cats" ∧ Params.page stale = 2%Z ∧
    Params.searchTerm (params_of (step DebounceElapsed Sample.dashboard))
      = "cats" ∧
    Params.page (params_of (step DebounceElapsed Sample.dashboard)) = 1%Z ∧
    fetched (step DebounceElapsed Sample.dashboard) =
      fetched Sample.dashboard ++ [stale] ++
      [params_of (step DebounceElapsed Sample.dashboard)].
Proof.
  apply (search_change_requests Sample.dashboard "cats");
    [reflexivity | discriminate | discriminate].
Defined.

Lemma store_update_witness :
  State.allPagesLoaded
    (state (step (ApiStateChange Sample.five_pages)
              (mount (H := Sample.constants) Sample.empty_store))) = false.
Proof.
  apply (store_update (mount (H := Sample.constants) Sample.empty_store)
           Sample.five_pages).
  apply reachable_mount.
Defined.


End MyStoriesMore.

(** ** More on the category picker *)

Module Media3pCategoriesMore.
Import Js Media3pCategories Media3pCategoriesView Media3pCategoriesFacts.

(** The pill of category [c] at position [i]. *)
Local Abbreviation pill_of sel isExpanded i c :=
  (CategoryPill.mk i (is_selected sel c) isExpanded (Category.id c)
     (Category.displayName c)
     (if is_selected sel c then [deselectCategory]
      else [setIsExpanded false; selectCategory (Category.id c)])).

Lemma map_from_pills sel isExpanded i (categories : list Category.t) :
  map_from (pill sel isExpanded) i (Some <$> categories) =
  Return (imap (λ j c, pill_of sel isExpanded (i + j) c) categories).
Proof.
  revert i. induction categories as [|c l IH]; intros i; [done|].
  rewrite fmap_cons. cbn [map_from pill]. rewrite IH, imap_cons.
  rewrite Nat.add_0_r. do 2 f_equal.
  apply imap_ext. intros j c' _. cbn. by rewrite Nat.add_succ_r.
Qed.

Lemma falsy_not_selected sel c :
  ToBoolean sel = false → Category.id c ≠ "" → is_selected sel c = false.
Proof.
  intros Hsel Hid. apply bool_decide_eq_false. intros <-.
  cbn in Hsel. apply negb_false_iff, String.eqb_eq in Hsel. done.
Qed.

Lemma find_first {A} (p : A → bool) l1 x l2 :
  (∀ y, y ∈ l1 → p y = false) → p x = true →
  find p (l1 ++ x :: l2) = Some x.
Proof.
  intros Hl1 Hx. induction l1 as [|y l1 IH]; simpl; [by rewrite Hx|].
  rewrite (Hl1 y) by left. apply IH. intros z Hz. apply Hl1. by right.
Qed.

(** X20. Without a selection (an undefined, null or empty
    [selectedCategoryId]) nothing is thrown and every category gets its
    pill, in the order of the list and numbered from 0, with the category's
    id as key and its display name as title; when the selection is
    undefined or null no pill is selected, and a click on any of them
    collapses the list and selects its category. *)
Theorem unselected_renders_all categories sel isExpanded :
  ToBoolean sel = false →
  renderCategories categories sel isExpanded =
    Return (imap (λ i c, pill_of sel isExpanded i c) categories) ∧
  (sel ≠ JsVal "" →
   renderCategories categories sel isExpanded =
     Return (imap (λ i c,
       CategoryPill.mk i false isExpanded (Category.id c)
         (Category.displayName c)
         [setIsExpanded false; selectCategory (Category.id c)]) categories)).
Proof.
  intros Hsel. unfold renderCategories. rewrite Hsel, map_from_pills.
  split; [done|]. intros Hne. f_equal. apply imap_ext. intros i c _.
  assert (is_selected sel c = false) as ->; [|done].
  apply bool_decide_eq_false. intros <-.
  cbn in Hsel. apply negb_false_iff, String.eqb_eq in Hsel.
  apply Hne. by rewrite Hsel.
Qed.

Lemma unselected_renders_all_witness :
  renderCategories [Sample.cooking; Sample.travel] JsUndefined true =
  Return [CategoryPill.mk 0 false true "categories/unsplash:c1" "Cooking"
            [setIsExpanded false; selectCategory "categories/unsplash:c1"];
          CategoryPill.mk 1 false true "categories/unsplash:c2" "Travel"
            [setIsExpanded false; selectCategory "categories/unsplash:c2"]].
Proof.
  apply (proj2 (unselected_renders_all [Sample.cooking; Sample.travel]
                  JsUndefined true eq_refl)).
  discriminate.
Defined.

(** X21. The picker as a whole throws exactly when there are categories, a
    selection is set and no category has its id. Without categories it
    renders nothing and does not throw, whatever the selection. *)
Theorem picker_throws_iff categories sel isExpanded :
  (throws (Media3pCategories categories sel isExpanded) ↔
   categories ≠ [] ∧ ToBoolean sel = true ∧
   ∀ c, c ∈ categories → JsVal (Category.id c) ≠ sel) ∧
  Media3pCategories [] sel isExpanded = Return None.
Proof.
  split; [|done]. unfold Media3pCategories.
  destruct categories as [|c0 l]; [by split; [|intros [? _]]|].
  change (negb (Z.of_nat (length (c0 :: l)) =? 0)%Z) with true. cbv iota.
  pose proof (renderCategories_throws (c0 :: l) sel isExpanded) as Hthrow.
  destruct (renderCategories (c0 :: l) sel isExpanded) as [pills|e]; simpl in *.
  - split; [done|]. intros [_ Hcase]. by apply Hthrow.
  - split; [|done]. intros _. split; [done|]. by apply Hthrow.
Qed.

(** X22. When several categories have the selected id, the pill shown is
    that of the first of them. *)
Theorem first_match_shown l1 c l2 isExpanded :
  Category.id c ≠ "" →
  (∀ c', c' ∈ l1 → Category.id c' ≠ Category.id c) →
  renderCategories (l1 ++ c :: l2) (JsVal (Category.id c)) isExpanded =
  Return [CategoryPill.mk 0 true isExpanded (Category.id c)
            (Category.displayName c) [deselectCategory]].
Proof.
  intros Hid Hl1. unfold renderCategories.
  assert (ToBoolean (JsVal (Category.id c)) = true) as ->.
  { cbn. apply negb_true_iff. by apply String.eqb_neq. }
  rewrite (find_first _ l1 c l2).
  - cbn. unfold is_selected. by rewrite bool_decide_eq_true_2.
  - intros c' Hc'. apply bool_decide_eq_false. intros [= Heq].
    by apply (Hl1 c').
  - by apply bool_decide_eq_true.
Qed.

Lemma first_match_shown_witness :
  renderCategories
    ([Sample.cooking] ++ Sample.travel
       :: [Category.mk "categories/unsplash:c2" "Journeys"])
    (JsVal "categories/unsplash:c2") false =
  Return [CategoryPill.mk 0 true false "categories/unsplash:c2" "Travel"
            [deselectCategory]].
Proof.
  apply (first_match_shown [Sample.cooking] Sample.travel
           [Category.mk "categories/unsplash:c2" "Journeys"] false).
  - discriminate.
  - intros c' Hc'. apply list_elem_of_singleton in Hc' as ->. discriminate.
Defined.

(** X23. Select, then deselect: without a selection, the pill of a category
    with a non-empty id collapses the list and selects that id when
    clicked; rendered again with this id selected, the picker shows one
    pill, with this id as key and marked selected, whose click
    deselects. *)
Theorem select_then_deselect categories c sel isExpanded :
  c ∈ categories → Category.id c ≠ "" → ToBoolean sel = false →
  (∃ pills i p,
     renderCategories categories sel isExpanded = Return pills ∧
     categories !! i = Some c ∧ pills !! i = Some p ∧
     CategoryPill.onClick p
       = [setIsExpanded false; selectCategory (Category.id c)]) ∧
  (∃ p,
     renderCategories categories (JsVal (Category.id c)) false = Return [p] ∧
     CategoryPill.key p = Category.id c ∧
     CategoryPill.isSelected p = true ∧
     CategoryPill.onClick p = [deselectCategory]).
Proof.
  intros Hin Hid Hsel. split.
  - apply list_elem_of_lookup in Hin as [i Hi].
    eexists. exists i. eexists. unfold renderCategories.
    rewrite Hsel, map_from_pills. split; [done|]. split; [done|].
    rewrite list_lookup_imap, Hi. split; [done|]. cbn.
    by rewrite (falsy_not_selected sel c).
  - unfold renderCategories.
    assert (ToBoolean (JsVal (Category.id c)) = true) as ->.
    { cbn. apply negb_true_iff. by apply String.eqb_neq. }
    destruct (find (is_selected (JsVal (Category.id c))) categories)
      as [c'|] eqn:Hfind.
    + apply find_Some in Hfind as [_ Hc']. cbn. rewrite Hc'.
      eexists. split; [done|]. cbn.
      apply bool_decide_eq_true in Hc'. by injection Hc' as ->.
    + apply (proj1 (find_None _ _) Hfind) in Hin.
      by apply bool_decide_eq_false in Hin.
Qed.

Lemma select_then_deselect_witness :
  ∃ p,
    renderCategories [Sample.cooking; Sample.travel]
      (JsVal "categories/unsplash:c2") false = Return [p] ∧
    CategoryPill.key p = "categories/unsplash:c2" ∧
    CategoryPill.isSelected p = true ∧
    CategoryPill.onClick p = [deselectCategory].
Proof.
  apply (select_then_deselect [Sample.cooking; Sample.travel] Sample.travel
           JsNull true).
  - right. left.
  - discriminate.
  - reflexivity.
Defined.

(** X24. What the picker shows when it shows something: with a selection,
    one pill and a hidden expand button; without, a pill for every
    category and a visible expand button. A click on the button flips the
    expansion. *)
Theorem picker_contents categories sel isExpanded pills button :
  Media3pCategories categories sel isExpanded = Return (Some (pills, button)) →
  ExpandButton.visible button = negb (ToBoolean sel) ∧
  length pills = (if ToBoolean sel then 1 else length categories) ∧
  ExpandButton.onClick button = [setIsExpanded (negb isExpanded)].
Proof.
  unfold Media3pCategories. case_match; [|done].
  destruct (renderCategories categories sel isExpanded) as [ps|e] eqn:Hr;
    [|done].
  intros [= <- <-]. split; [done|]. split; [|done].
  unfold renderCategories in Hr. destruct (ToBoolean sel).
  - cbn in Hr. repeat case_match; by simplify_eq.
  - rewrite map_from_pills in Hr. injection Hr as <-. by rewrite length_imap.
Qed.

Lemma picker_contents_witness :
  ∃ pills button,
    Media3pCategories [Sample.cooking; Sample.travel]
      (JsVal "categories/unsplash:c1") false = Return (Some (pills, button)) ∧
    ExpandButton.visible button = false ∧ length pills = 1.
Proof.
  eexists. eexists. split; [reflexivity|].
  destruct (picker_contents [Sample.cooking; Sample.travel]
              (JsVal "categories/unsplash:c1") false _ _ eq_refl)
    as (Hv & Hl & _).
  split; [exact Hv|exact Hl].
Defined.

End Media3pCategoriesMore.
